(** * FreeGS: the Equilibrium object and the Picard driver

    A shallow embedding of [freegs/equilibrium.py] and [freegs/picard.py].

    Conventions of the embedding.
    - Python and numpy floating point numbers are idealised as exact
      rationals ([Q]); a numpy division whose divisor is zero gives a
      non-finite value ([NonFinite], numpy's [inf] or [nan]), a Python float
      division by zero raises [ZeroDivisionError].
    - A numpy 2-D array is a list of rows ([field]); [a[x,y]] is entry [y] of
      row [x].
    - A Python call either returns or raises; a method that mutates its
      object leaves the mutations made so far in place when it raises
      ([outcome]).
    - The collaborators that live outside the two modules (machine, profiles,
      boundary strategy, multigrid, scipy's spline) are interfaces
      (type classes). *)

From Stdlib Require Import String QArith Qabs Qminmax ZArith List Bool Lia Lqa.
Import ListNotations.

Set Implicit Arguments.

(** ** Python: exceptions, results, calls *)

Module Py.

Inductive exn : Type :=
| TypeError | NameError | AttributeError | ValueError | IndexError
| ZeroDivisionError
| RuntimeError.

(** The result of evaluating a side-effect free expression. *)
Inductive result (A : Type) : Type :=
| Ok (a : A)
| Raise (e : exn).
Arguments Ok {A} a.
Arguments Raise {A} e.

Definition rbind {A B} (c : result A) (k : A -> result B) : result B :=
  match c with
  | Ok a => k a
  | Raise e => Raise e
  end.

(** The result of running a method on a mutable object of type [S]: the
    object as the call left it comes back in both cases. *)
Inductive outcome (S A : Type) : Type :=
| Done (a : A) (s : S)
| Failed (e : exn) (s : S).
Arguments Done {S A} a s.
Arguments Failed {S A} e s.

Definition M (S A : Type) : Type := S -> outcome S A.

Definition ret {S A} (a : A) : M S A := fun s => Done a s.

Definition bind {S A B} (c : M S A) (k : A -> M S B) : M S B :=
  fun s => match c s with
           | Done a s' => k a s'
           | Failed e s' => Failed e s'
           end.

Definition get {S} : M S S := fun s => Done s s.
Definition put {S} (s : S) : M S unit := fun _ => Done tt s.
Definition modify {S} (f : S -> S) : M S unit := fun s => Done tt (f s).

(** Evaluate an expression inside a method. *)
Definition lift {S A} (c : result A) : M S A :=
  fun s => match c with
           | Ok a => Done a s
           | Raise e => Failed e s
           end.

Definition final_state {S A} (o : outcome S A) : S :=
  match o with
  | Done _ s => s
  | Failed _ s => s
  end.

(** *** Binding the arguments of a call

    [def f(p1, p2=d2, ...)] has plain parameters only (no [*args], no
    [**kwargs]): a parameter is its name and its default, if any. *)

Definition params (V : Type) : Type := list (string * option V).
Definition env (V : Type) : Type := list (string * V).

Fixpoint lookup {V} (x : string) (e : env V) : option V :=
  match e with
  | [] => None
  | (y, v) :: e' => if String.eqb x y then Some v else lookup x e'
  end.

Definition has_name {V} (x : string) (l : list (string * V)) : bool :=
  existsb (fun p => String.eqb x (fst p)) l.

(** Positional arguments fill the parameters from the left; more arguments
    than parameters is a [TypeError]. Returns the bound names and the
    parameters still open. *)
Fixpoint bind_positional {V} (ps : params V) (pos : list V)
  : result (env V * params V) :=
  match pos, ps with
  | [], _ => Ok ([], ps)
  | _ :: _, [] => Raise TypeError
  | v :: pos', (x, _) :: ps' =>
      rbind (bind_positional ps' pos')
            (fun r => Ok ((x, v) :: fst r, snd r))
  end.

(** A keyword must name a parameter ([TypeError]: unexpected keyword
    argument) that has no value yet ([TypeError]: multiple values). *)
Fixpoint bind_keywords {V} (ps : params V) (bound : env V) (kw : env V)
  : result (env V) :=
  match kw with
  | [] => Ok bound
  | (k, v) :: kw' =>
      if has_name k bound then Raise TypeError
      else if has_name k ps then bind_keywords ps (bound ++ [(k, v)]) kw'
      else Raise TypeError
  end.

(** A parameter without a value takes its default; without one the call is a
    [TypeError] (missing required argument). *)
Fixpoint bind_defaults {V} (ps : params V) (bound : env V) : result (env V) :=
  match ps with
  | [] => Ok bound
  | (x, d) :: ps' =>
      if has_name x bound then bind_defaults ps' bound
      else match d with
           | Some v => bind_defaults ps' (bound ++ [(x, v)])
           | None => Raise TypeError
           end
  end.

Definition bind_args {V} (ps : params V) (pos : list V) (kw : env V)
  : result (env V) :=
  rbind (bind_positional ps pos) (fun r =>
  rbind (bind_keywords ps (fst r) kw) (fun bound =>
  bind_defaults ps bound)).

(** A free name in a function body is looked up among the locals, then
    among the module's globals; a name found in neither is a
    [NameError]. *)
Definition resolve {V} (locals : env V) (globals : list string) (x : string)
  : result unit :=
  if has_name x locals then Ok tt
  else if existsb (String.eqb x) globals then Ok tt
  else Raise NameError.

End Py.

Export Py.

Declare Scope py_scope.
Delimit Scope py_scope with py.
Notation "x <- c ;; k" := (Py.bind c (fun x => k))
  (at level 61, c at next level, right associativity) : py_scope.
Notation "c ;;; k" := (Py.bind c (fun _ => k))
  (at level 61, right associativity) : py_scope.
Notation "'let?' x := c 'in' k" := (Py.rbind c (fun x => k))
  (at level 61, x name, c at next level, right associativity).

(** ** numpy: 2-D arrays of floats *)

Module Np.

Abbreviation vec := (list Q).
Abbreviation field := (list (list Q)).

(** A float that may have left the finite range (the result of a numpy
    division). *)
Inductive xfloat : Type :=
| Finite (q : Q)
| NonFinite.

(** numpy's [a / b] on floats: a zero divisor gives [inf] or [nan] (and a
    warning), never an exception. *)
Definition np_div (a b : Q) : xfloat :=
  if Qeq_bool b 0 then NonFinite else Finite (a / b).

(** [x < y] for a numerator that is not negative: [nan < y] and
    [inf < y] are both false. *)
Definition xlt (x : xfloat) (y : Q) : bool :=
  match x with
  | Finite q => negb (Qle_bool y q)
  | NonFinite => false
  end.

Definition xadd (x : xfloat) (y : Q) : xfloat :=
  match x with
  | Finite q => Finite (q + y)
  | NonFinite => NonFinite
  end.

(** Python's [a / b] on floats. *)
Definition py_div (a b : Q) : result Q :=
  if Qeq_bool b 0 then Raise ZeroDivisionError else Ok (a / b).

(** [a.shape == b.shape], row by row. *)
Fixpoint same_shape (a b : field) : bool :=
  match a, b with
  | [], [] => true
  | r :: a', s :: b' => Nat.eqb (length r) (length s) && same_shape a' b'
  | _, _ => false
  end.

Fixpoint zip_with {A B C} (f : A -> B -> C) (l : list A) (m : list B)
  : list C :=
  match l, m with
  | x :: l', y :: m' => f x y :: zip_with f l' m'
  | _, _ => []
  end.

(** An elementwise operation on two arrays of one shape. Arrays of different
    shapes raise [ValueError], as numpy does when neither shape can be
    stretched to the other. numpy stretches an axis of length one;
    this is not modelled, every array of the program being built on one
    grid, so an operand with an axis of length one against a longer one is
    outside the model. *)
Definition elementwise (f : Q -> Q -> Q) (a b : field) : result field :=
  if same_shape a b then Ok (zip_with (zip_with f) a b)
  else Raise ValueError.

Definition add (a b : field) : result field := elementwise Qplus a b.
Definition sub (a b : field) : result field := elementwise Qminus a b.
Definition mul (a b : field) : result field := elementwise Qmult a b.

Definition fmap (f : Q -> Q) (a : field) : field := map (map f) a.

(** [c * a] and [a + c] for a scalar [c]. *)
Definition scale (c : Q) (a : field) : field := fmap (Qmult c) a.
Definition shift (c : Q) (a : field) : field := fmap (fun x => x + c) a.
Definition abs (a : field) : field := fmap Qabs a.

(** [amax], [amin]: the reduction of an array without elements is a
    [ValueError]. *)
Definition reduce (f : Q -> Q -> Q) (a : field) : result Q :=
  match concat a with
  | [] => Raise ValueError
  | x :: l => Ok (fold_left f l x)
  end.

Definition amax (a : field) : result Q := reduce Qmax a.
Definition amin (a : field) : result Q := reduce Qmin a.

(** Indexing; a negative index counts from the end. *)
Definition norm_index (n : nat) (i : Z) : result nat :=
  if (0 <=? i)%Z then
    if (i <? Z.of_nat n)%Z then Ok (Z.to_nat i) else Raise IndexError
  else
    if (- Z.of_nat n <=? i)%Z then Ok (Z.to_nat (Z.of_nat n + i))
    else Raise IndexError.

Definition item {A} (l : list A) (i : Z) : result A :=
  let? k := norm_index (length l) i in
  match nth_error l k with
  | Some x => Ok x
  | None => Raise IndexError
  end.

(** [a[i,j]] *)
Definition at2 (a : field) (i j : Z) : result Q :=
  let? r := item a i in item r j.

(** [a.shape[1]]: the rows of an array have one length. *)
Definition ncols (a : field) : nat := length (hd [] a).

(** [a[i,:]] *)
Definition row (a : field) (i : Z) : result vec := item a i.

(** [a[:,j]] *)
Definition col (a : field) (j : Z) : result vec :=
  let? k := norm_index (ncols a) j in
  Ok (map (fun r => nth k r 0) a).

Fixpoint set_nth {A} (k : nat) (x : A) (l : list A) : list A :=
  match l, k with
  | [], _ => []
  | _ :: l', O => x :: l'
  | y :: l', S k' => y :: set_nth k' x l'
  end.

(** [a[i,:] = v] with [v] a vector of the row's length. *)
Definition set_row (a : field) (i : Z) (v : vec) : result field :=
  let? k := norm_index (length a) i in
  if Nat.eqb (length v) (ncols a) then Ok (set_nth k v a)
  else Raise ValueError.

(** [a[:,j] = v] with [v] a vector of the column's length. *)
Definition set_col (a : field) (j : Z) (v : vec) : result field :=
  let? k := norm_index (ncols a) j in
  if Nat.eqb (length v) (length a)
  then Ok (zip_with (fun r x => set_nth k x r) a v)
  else Raise ValueError.

(** [a[i,:] = c] and [a[:,j] = c] for a scalar [c]. *)
Definition fill_row (a : field) (i : Z) (c : Q) : result field :=
  set_row a i (repeat c (ncols a)).
Definition fill_col (a : field) (j : Z) (c : Q) : result field :=
  set_col a j (repeat c (length a)).

(** [a[0,:] = c; a[:,0] = c; a[-1,:] = c; a[:,-1] = c] *)
Definition fill_edges (a : field) (c : Q) : result field :=
  let? a := fill_row a 0 c in
  let? a := fill_col a 0 c in
  let? a := fill_row a (-1) c in
  fill_col a (-1) c.

(** [linspace(0, 1, n)] *)
Definition linspace01 (n : Z) : result vec :=
  if (n <? 0)%Z then Raise ValueError
  else if (n =? 1)%Z then Ok [0]
  else Ok (map (fun i => inject_Z (Z.of_nat i) / inject_Z (n - 1))
               (seq 0 (Z.to_nat n))).

(** [meshgrid(x, y, indexing='ij')] *)
Definition meshgrid_ij (x y : vec) : field * field :=
  (map (fun xi => map (fun _ => xi) y) x, map (fun _ => y) x).

(** [a[i,j]] for indices in range. *)
Definition entry (a : field) (i j : nat) : Q := nth j (nth i a []) 0.

(** The first and last rows and columns of an [(nx, ny)] array. *)
Definition on_edge (nx ny i j : nat) : bool :=
  Nat.eqb i 0 || Nat.eqb j 0 || Nat.eqb i (nx - 1) || Nat.eqb j (ny - 1).

(** A field is [nx] rows of [ny] entries. *)
Definition has_shape (nx ny : nat) (a : field) : Prop :=
  length a = nx /\ Forall (fun r => length r = ny) a.

(** Every entry of the array is [c]. *)
Definition uniform (c : Q) (a : field) : Prop :=
  Forall (Forall (fun x => x == c)) a.

(** Equality of floats is [Qeq]. *)
Definition veq (u v : vec) : Prop := Forall2 Qeq u v.
Definition feq (a b : field) : Prop := Forall2 veq a b.

End Np.

Export Np.

(** ** scipy.integrate.romb

    Romberg integration of equally spaced samples with unit spacing, as the
    program calls it ([dx] left at its default [1.0]). *)

Module Scipy.

(** [while n < Ninterv: n <<= 1; k += 1] *)
Fixpoint romb_levels (fuel : nat) (n k : nat) (ninterv : nat) : nat * nat :=
  match fuel with
  | O => (n, k)
  | S fuel' =>
      if Nat.ltb n ninterv then romb_levels fuel' (2 * n) (S k) ninterv
      else (n, k)
  end.

(** [y[start:stop:step]] *)
Definition strided (y : vec) (start stop step : nat) : vec :=
  map (fun i => nth i y 0)
      (filter (fun i => Nat.leb start i && Nat.ltb i stop
                        && Nat.eqb (Nat.modulo (i - start) step) 0)
              (seq 0 (length y))).

Definition vsum (v : vec) : Q := fold_left Qplus v 0.

(** [R[(i,j)] = prev + (prev - R[(i-1,j-1)]) / ((1 << (2*j)) - 1)] for
    [j = 1 .. i], along row [i-1] of the table. *)
Fixpoint richardson (above : vec) (prev : Q) (j : nat) : vec :=
  match above with
  | [] => []
  | a :: above' =>
      let r := prev + (prev - a) / (inject_Z (Z.shiftl 1 (2 * Z.of_nat j)) - 1) in
      r :: richardson above' r (S j)
  end.

(** The body of [for i in range(1, k+1)], run [k] times: the state is row
    [i-1] of the table, [h], [start] and [step]. *)
Fixpoint romb_rows (k : nat) (y : vec) (stop : nat)
         (above : vec) (h : Q) (start step : nat) : vec :=
  match k with
  | O => above
  | S k' =>
      let start' := Nat.div2 start in
      let s := strided y start' stop step in
      let step' := Nat.div2 step in
      let r0 := (1 # 2) * (hd 0 above + h * vsum s) in
      romb_rows k' y stop (r0 :: richardson above r0 1) (h / 2) start' step'
  end.

(** [romb(y)] for a 1-D [y]. *)
Definition romb1 (y : vec) : result Q :=
  match length y with
  | O => Raise ValueError
  | S ninterv =>
      let '(n, k) := romb_levels ninterv 1 0 ninterv in
      if Nat.eqb n ninterv then
        let h := inject_Z (Z.of_nat ninterv) in
        let r00 := (hd 0 y + last y 0) / 2 * h in
        Ok (last (romb_rows k y ninterv [r00] h ninterv ninterv) 0)
      else Raise ValueError
  end.

Fixpoint mapM {A B} (f : A -> result B) (l : list A) : result (list B) :=
  match l with
  | [] => Ok []
  | x :: l' => let? y := f x in let? ys := mapM f l' in Ok (y :: ys)
  end.

(** [romb(a)] for a 2-D [a] integrates along the last axis. *)
Definition romb2 (a : field) : result vec := mapM romb1 a.

(** The number of samples Romberg integration accepts. *)
Definition romb_size (n : nat) : Prop := exists k : nat, n = (2 ^ k + 1)%nat.

End Scipy.

Export Scipy.

(** ** The collaborators of the solver core *)

(** What [tokamak.calcPsiFromGreens] returns: an array over the grid, or a
    scalar (a machine without coils). *)
Inductive vacuum : Type :=
| VacScalar (c : Q)
| VacField (f : field).

(** The coils and circuits ([machine]); [T] is the machine with its coil
    currents, [G] the table of Green's functions. *)
Class Machine (T G : Type) : Type := {
  createPsiGreens : T -> field -> field -> result G;
  calcPsiFromGreens : T -> G -> result vacuum;
  machine_Br : T -> Q -> Q -> Q;
  machine_Bz : T -> Q -> Q -> Q
}.

(** The plasma profiles ([jtor]). *)
Class Profile (P : Type) : Type := {
  Jtor : P -> field -> field -> field -> result field
}.

(** [scipy.interpolate.RectBivariateSpline]: construction from the two axes
    and the data, and evaluation [f(R, Z, dx=.., dy=..)], which returns a
    2-D array. *)
Class Interpolate (Sp : Type) : Type := {
  RectBivariateSpline : vec -> vec -> field -> result Sp;
  spline_call : Sp -> Q -> Q -> nat -> nat -> result field
}.

(** [gradshafranov] and [multigrid]: the constant [mu0], the operator
    generator, the V-cycle solver ([Sv], called as [solver(x, b)]) and the
    transfers between grids. *)
Class Multigrid (Gen Sv : Type) : Type := {
  mu0 : Q;
  GSsparse : Q -> Q -> Q -> Q -> Gen;
  createVcycle : Z -> Z -> Gen -> Z -> Z -> Z -> bool -> result Sv;
  call_solver : Sv -> field -> field -> result field;
  interpolate : field -> result field;
  restrict : field -> result field
}.

(** [numpy.exp] *)
Class Floats : Type := { exp : Q -> Q }.

(** The functions of a profiles object that the [Equilibrium] passes
    through, each at a value of the normalised flux; [fvac] takes none. *)
Class ProfileFunctions (P : Type) : Type := {
  profile_pprime : P -> Q -> result Q;
  profile_ffprime : P -> Q -> result Q;
  profile_pressure : P -> Q -> result Q;
  profile_fpol : P -> Q -> result Q;
  profile_fvac : P -> result Q
}.

(** ** freegs/equilibrium.py *)

Module equilibrium.

Section Equilibrium.

Variables T G P Sp Gen Sv B : Type.

(** The attributes of an [Equilibrium]; [_profiles] is absent until the
    first [solve]. The attribute [control], which only [refine] and
    [coarsen] copy, is left out. *)
Record Equilibrium : Type := mkEquilibrium {
  tokamak : T;
  _applyBoundary : B;
  Rmin : Q; Rmax : Q; Zmin : Q; Zmax : Q;
  Rgrid : field;   (* self.R *)
  Zgrid : field;   (* self.Z *)
  plasma_psi : field;
  psi_func : Sp;
  _pgreen : G;
  _current : Q;
  _solver : Sv;
  _profiles : option P
}.

Definition with_plasma_psi (v : field) (e : Equilibrium) : Equilibrium :=
  mkEquilibrium (tokamak e) (_applyBoundary e) (Rmin e) (Rmax e) (Zmin e)
    (Zmax e) (Rgrid e) (Zgrid e) v (psi_func e) (_pgreen e) (_current e) (_solver e)
    (_profiles e).

Definition with_psi_func (v : Sp) (e : Equilibrium) : Equilibrium :=
  mkEquilibrium (tokamak e) (_applyBoundary e) (Rmin e) (Rmax e) (Zmin e)
    (Zmax e) (Rgrid e) (Zgrid e) (plasma_psi e) v (_pgreen e) (_current e)
    (_solver e) (_profiles e).

Definition with_current (v : Q) (e : Equilibrium) : Equilibrium :=
  mkEquilibrium (tokamak e) (_applyBoundary e) (Rmin e) (Rmax e) (Zmin e)
    (Zmax e) (Rgrid e) (Zgrid e) (plasma_psi e) (psi_func e) (_pgreen e) v
    (_solver e) (_profiles e).

Definition with_solver (v : Sv) (e : Equilibrium) : Equilibrium :=
  mkEquilibrium (tokamak e) (_applyBoundary e) (Rmin e) (Rmax e) (Zmin e)
    (Zmax e) (Rgrid e) (Zgrid e) (plasma_psi e) (psi_func e) (_pgreen e)
    (_current e) v (_profiles e).

Definition with_profiles (v : option P) (e : Equilibrium) : Equilibrium :=
  mkEquilibrium (tokamak e) (_applyBoundary e) (Rmin e) (Rmax e) (Zmin e)
    (Zmax e) (Rgrid e) (Zgrid e) (plasma_psi e) (psi_func e) (_pgreen e)
    (_current e) (_solver e) v.

(** The boundary condition ([boundary]): called as
    [boundary(eq, Jtor, psi)], it writes the edge values into the array
    [psi] it is given; [freeBoundary] is the default of the constructor. *)
Class Boundary : Type := {
  apply_boundary : B -> Equilibrium -> field -> M field unit;
  freeBoundary : B
}.

Context {machine : Machine T G} {profile : Profile P}
        {interp : Interpolate Sp} {mg : Multigrid Gen Sv}
        {bnd : Boundary} {floats : Floats}.

(** [interpolate.RectBivariateSpline(self.R[:,0], self.Z[0,:], plasma_psi)] *)
Definition spline_over (R Z psi : field) : result Sp :=
  let? x := col R 0 in
  let? y := row Z 0 in
  RectBivariateSpline x y psi.

Definition _updatePlasmaPsi (psi : field) : M Equilibrium unit :=
  (modify (with_plasma_psi psi) ;;;
   self <- get ;;
   f <- lift (spline_over (Rgrid self) (Zgrid self) psi) ;;
   modify (with_psi_func f))%py.

(** The starting guess
    [exp(-((xx - 0.5)**2 + (yy - yymid)**2) / 0.4**2)]. *)
Definition bump (yymid x y : Q) : Q :=
  exp (- ((x - (1 # 2)) ^ 2 + (y - yymid) ^ 2) / (2 # 5) ^ 2).

Definition grid_R (Rmin dR : Q) (nx ny : Z) : field :=
  map (fun x => repeat (Rmin + inject_Z (Z.of_nat x) * dR) (Z.to_nat ny))
      (seq 0 (Z.to_nat nx)).

Definition grid_Z (Zmin dZ : Q) (nx ny : Z) : field :=
  map (fun _ => map (fun y => Zmin + inject_Z (Z.of_nat y) * dZ)
                    (seq 0 (Z.to_nat ny)))
      (seq 0 (Z.to_nat nx)).

(** [Equilibrium.__init__]. The object exists for the caller only when the
    constructor returns; the spline of the starting guess is built by
    [_updatePlasmaPsi] before the other attributes are set. *)
Definition Equilibrium_init (tokamak : T) (Rmin Rmax Zmin Zmax : Q)
           (nx ny : Z) (boundary : B) : result Equilibrium :=
  let? dR := py_div (Rmax - Rmin) (inject_Z (nx - 1)) in
  let? dZ := py_div (Zmax - Zmin) (inject_Z (ny - 1)) in
  let? q := py_div Zmax (Zmax - Zmin) in
  let yymid := 1 - q in
  let? lx := linspace01 nx in
  let? ly := linspace01 ny in
  let '(xx, yy) := meshgrid_ij lx ly in
  let psi := zip_with (zip_with (bump yymid)) xx yy in
  let? psi := fill_edges psi 0 in
  let R := grid_R Rmin dR nx ny in
  let Z := grid_Z Zmin dZ nx ny in
  let? f := spline_over R Z psi in
  let? pgreen := createPsiGreens tokamak R Z in
  let generator := GSsparse Rmin Rmax Zmin Zmax in
  let? solver := createVcycle nx ny generator 1 1 2 true in
  Ok (mkEquilibrium tokamak boundary Rmin Rmax Zmin Zmax R Z psi f pgreen 0
                    solver None).

(** Values that reach a method of the class as arguments. *)
Inductive pyval : Type :=
| VEq (e : Equilibrium)
| VProfiles (p : P)
| VSolver (s : Sv)
| VInt (z : Z)
| VBool (b : bool)
| VFloat (q : Q).

(** [obj.method(args, kw)]: the object is the first positional argument of
    the function found in the class. *)
Definition call_method (ps : params pyval)
           (body : env pyval -> M Equilibrium unit)
           (args : list pyval) (kw : env pyval) : M Equilibrium unit :=
  fun self =>
    match bind_args ps (VEq self :: args) kw with
    | Ok locals => body locals self
    | Raise e => Failed e self
    end.

(** The data names among the globals of the module: none when it is
    imported; when the file is run as a script, the names its test block
    has assigned ([Rmin] and [Rmax] among them, never [Zmin], [Zmax] or
    [self]). *)
Definition module_globals (as_main : bool) : env pyval :=
  if as_main then [("Rmin"%string, VFloat (1 # 10));
                   ("Rmax"%string, VFloat 2)]
  else [].

Definition load_name (locals globals : env pyval) (x : string)
  : result pyval :=
  match lookup x locals with
  | Some v => Ok v
  | None => match lookup x globals with
            | Some v => Ok v
            | None => Raise NameError
            end
  end.

Definition as_float (v : pyval) : result Q :=
  match v with
  | VFloat q => Ok q
  | VInt z => Ok (inject_Z z)
  | _ => Raise TypeError
  end.

Definition as_int (v : pyval) : result Z :=
  match v with
  | VInt z => Ok z
  | VBool b => Ok (if b then 1 else 0)%Z
  | _ => Raise TypeError
  end.

Definition as_bool (v : pyval) : result bool :=
  match v with
  | VBool b => Ok b
  | VInt z => Ok (negb (z =? 0)%Z)
  | _ => Raise TypeError
  end.

Definition as_eq (v : pyval) : result Equilibrium :=
  match v with
  | VEq e => Ok e
  | _ => Raise AttributeError
  end.

Definition as_profiles (v : pyval) : result P :=
  match v with
  | VProfiles p => Ok p
  | _ => Raise AttributeError
  end.

(** [def setSolverVcycle(nlevels=1, ncycle=1, niter=1, direct=True)]: the
    parameter list has no [self]; the body reads [Rmin], [Rmax], [Zmin],
    [Zmax] and [self] as free names. *)
Definition setSolverVcycle_params : params pyval :=
  [("nlevels"%string, Some (VInt 1)); ("ncycle"%string, Some (VInt 1));
   ("niter"%string, Some (VInt 1)); ("direct"%string, Some (VBool true))].

Definition setSolverVcycle_body (as_main : bool) (locals : env pyval)
  : M Equilibrium unit :=
  let name x := load_name locals (module_globals as_main) x in
  (generator <- lift (let? a := rbind (name "Rmin"%string) as_float in
                      let? b := rbind (name "Rmax"%string) as_float in
                      let? c := rbind (name "Zmin"%string) as_float in
                      let? d := rbind (name "Zmax"%string) as_float in
                      Ok (GSsparse a b c d)) ;;
   this <- lift (rbind (name "self"%string) as_eq) ;;
   let nx := Z.of_nat (length (Rgrid this)) in
   let ny := Z.of_nat (ncols (Rgrid this)) in
   solver <- lift (let? nlevels := rbind (name "nlevels"%string) as_int in
                   let? ncycle := rbind (name "ncycle"%string) as_int in
                   let? niter := rbind (name "niter"%string) as_int in
                   let? direct := rbind (name "direct"%string) as_bool in
                   createVcycle nx ny generator nlevels ncycle niter direct) ;;
   modify (with_solver solver))%py.

Definition setSolverVcycle (as_main : bool)
  : list pyval -> env pyval -> M Equilibrium unit :=
  call_method setSolverVcycle_params (setSolverVcycle_body as_main).

(** [def setSolver(solver)]: no [self] either. *)
Definition setSolver_params : params pyval := [("solver"%string, None)].

Definition setSolver_body (as_main : bool) (locals : env pyval)
  : M Equilibrium unit :=
  let name x := load_name locals (module_globals as_main) x in
  (s <- lift (name "solver"%string) ;;
   _ <- lift (rbind (name "self"%string) as_eq) ;;
   match s with
   | VSolver sv => modify (with_solver sv)
   | _ => lift (Raise TypeError)
   end)%py.

Definition setSolver (as_main : bool)
  : list pyval -> env pyval -> M Equilibrium unit :=
  call_method setSolver_params (setSolver_body as_main).

Definition callSolver (self : Equilibrium) (psi rhs : field) : result field :=
  call_solver (_solver self) psi rhs.

Definition getMachine (self : Equilibrium) : T := tokamak self.

Definition plasmaCurrent (self : Equilibrium) : Q := _current self.

(** [a[0][0]] *)
Definition item00 (a : field) : result Q :=
  let? r := item a 0 in item r 0.

(** [-self.psi_func(R,Z,dy=1)[0][0]/R] *)
Definition plasmaBr (self : Equilibrium) (R Z : Q) : result xfloat :=
  let? a := spline_call (psi_func self) R Z 0 1 in
  let? d := item00 a in
  Ok (np_div (- d) R).

(** [self.psi_func(R,Z,dx=1)[0][0]/R] *)
Definition plasmaBz (self : Equilibrium) (R Z : Q) : result xfloat :=
  let? a := spline_call (psi_func self) R Z 1 0 in
  let? d := item00 a in
  Ok (np_div d R).

Definition Br (self : Equilibrium) (R Z : Q) : result xfloat :=
  let? b := plasmaBr self R Z in
  Ok (xadd b (machine_Br (tokamak self) R Z)).

Definition Bz (self : Equilibrium) (R Z : Q) : result xfloat :=
  let? b := plasmaBz self R Z in
  Ok (xadd b (machine_Bz (tokamak self) R Z)).

(** [self.plasma_psi + self.tokamak.calcPsiFromGreens(self._pgreen)] *)
Definition psi (self : Equilibrium) : result field :=
  let? v := calcPsiFromGreens (tokamak self) (_pgreen self) in
  match v with
  | VacScalar c => Ok (shift c (plasma_psi self))
  | VacField f => add (plasma_psi self) f
  end.

(** The right hand side of the linear problem: [-mu0 * self.R * Jtor], then
    the four edges copied from [plasma_psi]. *)
Definition solve_rhs (R Jtor plasma_psi : field) : result field :=
  let? rhs := mul (scale (- mu0) R) Jtor in
  let? r0 := row plasma_psi 0 in
  let? rhs := set_row rhs 0 r0 in
  let? c0 := col plasma_psi 0 in
  let? rhs := set_col rhs 0 c0 in
  let? r1 := row plasma_psi (-1) in
  let? rhs := set_row rhs (-1) r1 in
  let? c1 := col plasma_psi (-1) in
  set_col rhs (-1) c1.

(** [self._applyBoundary(self, Jtor, self.plasma_psi)]: the strategy writes
    into the array that is [self.plasma_psi]; [psi_func] is not touched. *)
Definition solve_boundary (Jtor : field) : M Equilibrium unit :=
  fun self =>
    match apply_boundary (_applyBoundary self) self Jtor (plasma_psi self) with
    | Done _ psi' => Done tt (with_plasma_psi psi' self)
    | Failed e psi' => Failed e (with_plasma_psi psi' self)
    end.

(** [romb(romb(Jtor))] *)
Definition romb_romb (Jtor : field) : result Q :=
  let? inner := romb2 Jtor in romb1 inner.

(** [self._current = romb(romb(Jtor)) * dR*dZ] with
    [dR = self.R[1,0] - self.R[0,0]] and [dZ = self.Z[0,1] - self.Z[0,0]]. *)
Definition solve_current (Jtor : field) : M Equilibrium unit :=
  (self <- get ;;
   dR <- lift (let? a := at2 (Rgrid self) 1 0 in
               let? b := at2 (Rgrid self) 0 0 in Ok (a - b)) ;;
   dZ <- lift (let? a := at2 (Zgrid self) 0 1 in
               let? b := at2 (Zgrid self) 0 0 in Ok (a - b)) ;;
   I <- lift (romb_romb Jtor) ;;
   modify (with_current (I * dR * dZ)))%py.

(** [profiles.Jtor(self.R, self.Z, self.psi())] *)
Definition solve_Jtor (profiles : P) (self : Equilibrium) : result field :=
  let? psi_total := psi self in
  Jtor profiles (Rgrid self) (Zgrid self) psi_total.

(** The body of [Equilibrium.solve(self, profiles)]. *)
Definition solve_body (profiles : P) : M Equilibrium unit :=
  (modify (with_profiles (Some profiles)) ;;;
   self <- get ;;
   J <- lift (solve_Jtor profiles self) ;;
   solve_boundary J ;;;
   self <- get ;;
   rhs <- lift (solve_rhs (Rgrid self) J (plasma_psi self)) ;;
   plasma_psi' <- lift (call_solver (_solver self) (plasma_psi self) rhs) ;;
   _updatePlasmaPsi plasma_psi' ;;;
   solve_current J)%py.

Definition solve_params : params pyval :=
  [("self"%string, None); ("profiles"%string, None)].

(** [eq.solve(args, kw)]. An argument that is no profiles object fails at
    [profiles.Jtor]; the code has stored it in [_profiles] by then, which
    the record, holding profiles objects only, does not show. *)
Definition solve : list pyval -> env pyval -> M Equilibrium unit :=
  call_method solve_params
    (fun locals =>
       match lookup "profiles"%string locals with
       | Some v => (p <- lift (as_profiles v) ;; solve_body p)%py
       | None => lift (Raise NameError)
       end).

(** [refine(eq)] and [coarsen(eq)] build a new object on the grid of the
    transferred field and leave [eq] as it is. *)
Definition regrid (transfer : field -> result field) (eq : Equilibrium)
  : result Equilibrium :=
  let? plasma_psi := transfer (plasma_psi eq) in
  let nx := Z.of_nat (length plasma_psi) in
  let ny := Z.of_nat (ncols plasma_psi) in
  let? result := Equilibrium_init (tokamak eq) (Rmin eq) (Rmax eq) (Zmin eq)
                                  (Zmax eq) nx ny freeBoundary in
  match _updatePlasmaPsi plasma_psi result with
  | Done _ result => Ok (with_profiles (_profiles eq) result)
  | Failed e _ => Raise e
  end.

Definition refine : Equilibrium -> result Equilibrium := regrid interpolate.
Definition coarsen : Equilibrium -> result Equilibrium := regrid restrict.

(** "This must be 2^n + 1" *)
Definition grid_size (n : Z) : Prop :=
  exists k : nat, n = (2 ^ Z.of_nat k + 1)%Z.

(** The interpolator is the spline of the plasma flux as it stands. *)
Definition spline_current (self : Equilibrium) : Prop :=
  spline_over (Rgrid self) (Zgrid self) (plasma_psi self)
  = Ok (psi_func self).

(** The objects a caller holds after an operation that sets the flux has
    returned: the constructor, [solve], [refine], [coarsen] and
    [_updatePlasmaPsi] itself. *)
Inductive returned_by : Equilibrium -> Prop :=
| by_init tokamak Rmin Rmax Zmin Zmax nx ny boundary self :
    Equilibrium_init tokamak Rmin Rmax Zmin Zmax nx ny boundary = Ok self ->
    returned_by self
| by_solve args kw self self' :
    solve args kw self = Done tt self' -> returned_by self'
| by_refine eq self :
    refine eq = Ok self -> returned_by self
| by_coarsen eq self :
    coarsen eq = Ok self -> returned_by self
| by_update psi self self' :
    _updatePlasmaPsi psi self = Done tt self' -> returned_by self'.

(** Two objects on the same grid with the same machine, table, boundary
    strategy and solver. *)
Definition same_setup (a b : Equilibrium) : Prop :=
  tokamak a = tokamak b /\ _applyBoundary a = _applyBoundary b /\
  Rmin a = Rmin b /\ Rmax a = Rmax b /\ Zmin a = Zmin b /\ Zmax a = Zmax b /\
  Rgrid a = Rgrid b /\ Zgrid a = Zgrid b /\
  _pgreen a = _pgreen b /\ _solver a = _solver b.

(** *** The pass-through accessors *)

Context {pfun : ProfileFunctions P}.

(** [self._profiles]: the attribute exists once [solve] has set it. *)
Definition get_profiles (self : Equilibrium) : result P :=
  match _profiles self with
  | Some p => Ok p
  | None => Raise AttributeError
  end.

Definition fpol (self : Equilibrium) (psinorm : Q) : result Q :=
  let? p := get_profiles self in profile_fpol p psinorm.

Definition fvac (self : Equilibrium) : result Q :=
  let? p := get_profiles self in profile_fvac p.

(** [return psinorm * 0.0] *)
Definition q (self : Equilibrium) (psinorm : Q) : Q := psinorm * 0.

Definition pprime (self : Equilibrium) (psinorm : Q) : result Q :=
  let? p := get_profiles self in profile_pprime p psinorm.

Definition ffprime (self : Equilibrium) (psinorm : Q) : result Q :=
  let? p := get_profiles self in profile_ffprime p psinorm.

(** [pressure(self, psinorm, out=None)]: [out] is not used. *)
Definition pressure (self : Equilibrium) (psinorm : Q) : result Q :=
  let? p := get_profiles self in profile_pressure p psinorm.

(** *** Objects in use

    The objects a program can hold: one the constructor returned, and from
    there on whatever a call of [solve], [_updatePlasmaPsi] or one of the
    two solver setters leaves (returning or raising), and what [refine]
    and [coarsen] return. *)
Inductive in_use : Equilibrium -> Prop :=
| use_init tokamak Rmin Rmax Zmin Zmax nx ny boundary self :
    Equilibrium_init tokamak Rmin Rmax Zmin Zmax nx ny boundary = Ok self ->
    in_use self
| use_solve args kw self :
    in_use self -> in_use (final_state (solve args kw self))
| use_update psi self :
    in_use self -> in_use (final_state (_updatePlasmaPsi psi self))
| use_setSolverVcycle as_main args kw self :
    in_use self -> in_use (final_state (setSolverVcycle as_main args kw self))
| use_setSolver as_main args kw self :
    in_use self -> in_use (final_state (setSolver as_main args kw self))
| use_refine eq self :
    in_use eq -> refine eq = Ok self -> in_use self
| use_coarsen eq self :
    in_use eq -> coarsen eq = Ok self -> in_use self.

End Equilibrium.

Arguments VEq {T G P Sp Sv B} e.
Arguments VProfiles {T G P Sp Sv B} p.
Arguments VSolver {T G P Sp Sv B} s.
Arguments VInt {T G P Sp Sv B} z.
Arguments VBool {T G P Sp Sv B} b.
Arguments VFloat {T G P Sp Sv B} q.
Arguments module_globals {T G P Sp Sv B} as_main.
Arguments setSolverVcycle_params {T G P Sp Sv B}.
Arguments setSolver_params {T G P Sp Sv B}.
Arguments solve_params {T G P Sp Sv B}.

End equilibrium.

(** ** freegs/picard.py *)

Module picard.

(** The calls the driver makes on its collaborators, in the order made. *)
Inductive event : Type :=
| CallConstrain
| CallSolve.

Section Picard.

(** [E] is the object passed as [eq], [P] the profiles object. *)
Variables E P : Type.

(** What the driver asks of [eq]: the two call expressions [eq.psi()] and
    [eq.solve(profiles, niter=niter, sublevels=sublevels, ncycle=ncycle)]. *)
Record EqObject : Type := {
  eq_psi : E -> result field;
  eq_solve : P -> Z -> Z -> Z -> M E unit
}.

(** The state of a run: the object [eq] and the calls made so far. *)
Record frame : Type := { obj : E; log : list event }.

(** How a run ends: the loop was left by [break], an exception came out of
    the driver, or the loop is still running when the fuel is spent. *)
Inductive run : Type :=
| Converged (s : frame)
| Raised (e : exn) (s : frame)
| Running (s : frame).

Variable iface : EqObject.
Variable profiles : P.
Variable constrain : option (M E unit).
Variables rtol blend : Q.
Variables niter sublevels ncycle : Z.

Definition on_eq {A} (c : M E A) : M frame A :=
  fun s => match c (obj s) with
           | Done a e => Done a {| obj := e; log := log s |}
           | Failed x e => Failed x {| obj := e; log := log s |}
           end.

Definition emit (ev : event) : M frame unit :=
  modify (fun s => {| obj := obj s; log := log s ++ [ev] |}).

(** [if constrain is not None: constrain(eq)] *)
Definition call_constrain : M frame unit :=
  match constrain with
  | Some c => (emit CallConstrain ;;; on_eq c)%py
  | None => ret tt
  end.

(** [eq.psi()] *)
Definition total_psi : M frame field :=
  fun s => lift (eq_psi iface (obj s)) s.

(** [psi_maxchange = amax(abs(psi_last))] and
    [psi_relchange = psi_maxchange/(amax(psi) - amin(psi))], for
    [psi_last] the change of [psi]. *)
Definition relchange (psi_last psi : field) : result xfloat :=
  let? psi_maxchange := amax (abs psi_last) in
  let? hi := amax psi in
  let? lo := amin psi in
  Ok (np_div psi_maxchange (hi - lo)).

(** The first half of the body of [while True] (without plotting; [print]
    has no effect on the state): solve, and compare with the flux carried
    into this turn. [psi_last -= psi] leaves the change in [psi_last]. *)
Definition compare (psi : field) : M frame (field * xfloat) :=
  (let psi_last := psi in
   emit CallSolve ;;;
   on_eq (eq_solve iface profiles niter sublevels ncycle) ;;;
   psi <- total_psi ;;
   psi_last <- lift (sub psi_last psi) ;;
   psi_relchange <- lift (relchange psi_last psi) ;;
   ret (psi_last, psi_relchange))%py.

(** [(1. - blend)*eq.psi() + blend*psi_last] *)
Definition blended (psi_new psi_last : field) : result field :=
  add (scale (1 - blend) psi_new) (scale blend psi_last).

(** The second half, after the test: adjust the coil currents and set [psi]
    for the next turn. *)
Definition prepare (psi_last : field) : M frame field :=
  (call_constrain ;;;
   psi_new <- total_psi ;;
   lift (blended psi_new psi_last))%py.

(** One turn of the loop: [None] is [break], [Some psi] the value of [psi]
    at the end of the body. *)
Definition iteration (psi : field) : M frame (option field) :=
  (c <- compare psi ;;
   if xlt (snd c) rtol then ret None
   else psi <- prepare (fst c) ;; ret (Some psi))%py.

Fixpoint main_loop (fuel : nat) (psi : field) (s : frame) : run :=
  match fuel with
  | O => Running s
  | S fuel' =>
      match iteration psi s with
      | Done None s' => Converged s'
      | Done (Some psi') s' => main_loop fuel' psi' s'
      | Failed e s' => Raised e s'
      end
  end.

(** [solve(eq, profiles, constrain, rtol, blend, show=False, ...)], run for
    at most [fuel] turns of the loop. *)
Definition solve (fuel : nat) (eq : E) : run :=
  match (call_constrain ;;; total_psi)%py {| obj := eq; log := [] |} with
  | Done psi s => main_loop fuel psi s
  | Failed e s => Raised e s
  end.

(** [n] turns of the loop, none of which leaves it, take [psi] and the
    state [s] to [psi'] and [s']. *)
Inductive turns : nat -> field -> frame -> field -> frame -> Prop :=
| turns_none psi s : turns 0 psi s psi s
| turns_next n psi s psi1 s1 psi' s' :
    iteration psi s = Done (Some psi1) s1 ->
    turns n psi1 s1 psi' s' ->
    turns (S n) psi s psi' s'.

End Picard.

(** Every call of [eq.solve] in a log has a call of [constrain] right
    before it and another right after it. *)
Definition constrained_around (l : list event) : Prop :=
  forall l1 l2, l = l1 ++ CallSolve :: l2 ->
    (exists l1', l1 = l1' ++ [CallConstrain]) /\
    (exists l2', l2 = CallConstrain :: l2').

(** The driver applied to an [Equilibrium]. *)
Section OnEquilibrium.

Context {T G P Sp Gen Sv B : Type}.
Context {machine : Machine T G} {profile : Profile P}
        {interp : Interpolate Sp} {mg : Multigrid Gen Sv}
        {bnd : equilibrium.Boundary T G P Sp Sv B}.

Definition EquilibriumObject
  : EqObject (equilibrium.Equilibrium T G P Sp Sv B) P :=
  {| eq_psi := @equilibrium.psi T G P Sp Sv B machine;
     eq_solve := fun profiles niter sublevels ncycle =>
       equilibrium.solve (Gen:=Gen)
         [equilibrium.VProfiles profiles]
         [("niter"%string, equilibrium.VInt niter);
          ("sublevels"%string, equilibrium.VInt sublevels);
          ("ncycle"%string, equilibrium.VInt ncycle)] |}.

End OnEquilibrium.

End picard.

(** ** Concrete collaborators

    Small stand-ins for the collaborators, on which the model runs. *)

Module Demo.

(** A machine without coils: no table, no vacuum flux, no vacuum field. *)
#[export] Instance empty_machine : Machine unit unit := {|
  createPsiGreens := fun _ _ _ => Ok tt;
  calcPsiFromGreens := fun _ _ => Ok (VacScalar 0);
  machine_Br := fun _ _ _ => 0;
  machine_Bz := fun _ _ _ => 0
|}.

(** A profile object that is the current density it returns. *)
#[export] Instance fixed_profile : Profile field := {|
  Jtor := fun J _ _ _ => Ok J
|}.

(** Its profile functions: the corner value of the current density times
    the normalised flux, and the corner value for the vacuum field. *)
#[export] Instance fixed_profile_functions : ProfileFunctions field := {|
  profile_pprime := fun J x => Ok (entry J 0 0 * x);
  profile_ffprime := fun J x => Ok (entry J 0 0 * x);
  profile_pressure := fun J x => Ok (entry J 0 0 * x);
  profile_fpol := fun J x => Ok (entry J 0 0 * x);
  profile_fvac := fun J => Ok (entry J 0 0)
|}.

(** A spline is kept as the axes and data it was built from; evaluated, it
    gives the corner value of the data, or the order of the derivative
    asked for. *)
Record spline : Type := { axis_x : vec; axis_y : vec; data : field }.

#[export] Instance record_spline : Interpolate spline := {|
  RectBivariateSpline := fun x y d => Ok {| axis_x := x; axis_y := y; data := d |};
  spline_call := fun s _ _ dx dy =>
    Ok [[match dx, dy with
         | O, O => nth 0 (nth 0 (data s) []) 0
         | _, _ => inject_Z (Z.of_nat dx) + 2 * inject_Z (Z.of_nat dy)
         end]]
|}.

(** A solver is kept as its configuration; called, it hands back the right
    hand side, or raises when it was built with no sweep at all. *)
Record vcycle : Type := {
  vc_nx : Z; vc_ny : Z; vc_nlevels : Z; vc_ncycle : Z; vc_niter : Z;
  vc_direct : bool
}.

#[export] Instance record_multigrid : Multigrid (Q * Q * Q * Q) vcycle := {|
  mu0 := 1;
  GSsparse := fun a b c d => (a, b, c, d);
  createVcycle := fun nx ny _ nlevels ncycle niter direct =>
    Ok {| vc_nx := nx; vc_ny := ny; vc_nlevels := nlevels;
          vc_ncycle := ncycle; vc_niter := niter; vc_direct := direct |};
  call_solver := fun s _ rhs =>
    if (vc_niter s =? 0)%Z then Raise RuntimeError else Ok rhs;
  interpolate := fun a => Ok a;
  restrict := fun a => Ok a
|}.

(** A boundary strategy is the value it writes on the four edges. *)
Definition set_edges (c : Q) : M field unit :=
  fun a => match fill_edges a c with
           | Ok a' => Done tt a'
           | Raise e => Failed e a
           end.

#[export] Instance edge_boundary
  : equilibrium.Boundary unit unit field spline vcycle Q := {|
  equilibrium.apply_boundary := fun c _ _ => set_edges c;
  equilibrium.freeBoundary := 1
|}.

(** A rational stand-in for [exp] on the negative axis. *)
#[export] Instance rational_exp : Floats := {| exp := fun x => 1 / (1 - x) |}.

Definition Eq : Type :=
  equilibrium.Equilibrium unit unit field spline vcycle Q.

(** [Equilibrium(Rmin=0.1, Rmax=2.0, Zmin=-1.0, Zmax=1.0, nx, ny, boundary)] *)
Definition make (nx ny : Z) (boundary : Q) : result Eq :=
  equilibrium.Equilibrium_init field tt (1 # 10) 2 (-1) 1 nx ny boundary.

(** An object without a grid, and the object a constructor call gives. *)
Definition blank : Eq :=
  equilibrium.mkEquilibrium tt 0 0 0 0 0 [] [] []
    {| axis_x := []; axis_y := []; data := [] |} tt 0
    {| vc_nx := 0; vc_ny := 0; vc_nlevels := 0; vc_ncycle := 0;
       vc_niter := 0; vc_direct := false |} (None : option field).

Definition built (r : result Eq) : Eq :=
  match r with
  | Ok e => e
  | Raise _ => blank
  end.

(** A 5 x 5 equilibrium whose boundary strategy writes 1 on the edges, a
    uniform current density of 2 on its grid, the object as [solve] has it
    once the boundary strategy has run, and the object after the solve. *)
Definition eq5 : Eq := Eval vm_compute in built (make 5 5 1).

Definition J5 : field :=
  Eval vm_compute in fmap (fun _ => 2) (equilibrium.Rgrid eq5).

Definition eq5_edges : Eq :=
  Eval vm_compute in
    final_state (equilibrium.solve_boundary J5
                   (equilibrium.with_profiles (Some J5) eq5)).

Definition eq5_solved : Eq :=
  Eval vm_compute in final_state (equilibrium.solve_body J5 eq5).

(** A current density of 2 by 3 points, which does not fit the 5 by 5 grid
    (and cannot be stretched to it), and the same object after a solve
    with it. *)
Definition J23 : field := [[2; 2; 2]; [2; 2; 2]].

Definition eq5_failed : Eq :=
  Eval vm_compute in final_state (equilibrium.solve_body J23 eq5).

(** The 5 by 5 object refined (the stand-in for the interpolation hands
    the flux back), and a 7 by 7 object with a uniform current density. *)
Definition eq5_refined : Eq :=
  Eval vm_compute in built (equilibrium.refine eq5_solved).

Definition eq7 : Eq := Eval vm_compute in built (make 7 7 1).

Definition J7 : field :=
  Eval vm_compute in fmap (fun _ => 2) (equilibrium.Rgrid eq7).

Definition eq7_failed : Eq :=
  Eval vm_compute in final_state (equilibrium.solve_body J7 eq7).

(** A scripted object for the driver: the state is the list of total
    fluxes that [psi()] will show, one per [solve]; [solve] moves to the
    next one and raises at a gap. *)
Definition script : Type := list (option field).

Definition scripted : picard.EqObject script unit := {|
  picard.eq_psi := fun s => match s with
                            | Some f :: _ => Ok f
                            | _ => Raise RuntimeError
                            end;
  picard.eq_solve := fun _ _ _ _ s =>
    match s with
    | _ :: (Some _ :: _) as s' => Done tt s'
    | _ :: s' => Failed RuntimeError s'
    | [] => Failed RuntimeError []
    end
|}.

(** A constraint that leaves the object as it is. *)
Definition no_adjust : M script unit := ret tt.

End Demo.

(** * Properties *)

(** ** Calls *)

Section CallFacts.

Variable V : Type.

Lemma has_name_app (x : string) (l m : env V) :
  has_name x (l ++ m) = has_name x l || has_name x m.
Proof. unfold has_name. apply existsb_app. Qed.

Lemma lookup_absent (x : string) (l : env V) :
  has_name x l = false -> lookup x l = None.
Proof.
  induction l as [|[y v] l IH]; simpl; [reflexivity|].
  destruct (String.eqb x y); simpl; [discriminate | exact IH].
Qed.

Lemma bind_positional_names (ps : params V) :
  forall pos b rest x,
    bind_positional ps pos = Ok (b, rest) ->
    has_name x b = true -> has_name x ps = true.
Proof.
  induction ps as [|[y d] ps IH]; intros [|v pos] b rest x H Hx; simpl in H.
  - inversion H; subst. discriminate Hx.
  - discriminate H.
  - inversion H; subst. discriminate Hx.
  - destruct (bind_positional ps pos) as [[b0 r0]|] eqn:E; simpl in H;
      [|discriminate H].
    inversion H; subst. simpl in Hx |- *.
    destruct (String.eqb x y); simpl in *; [reflexivity|].
    eapply IH; eauto.
Qed.

Lemma bind_keywords_names (ps : params V) :
  forall kw b b' x,
    bind_keywords ps b kw = Ok b' ->
    (has_name x b = true -> has_name x ps = true) ->
    has_name x b' = true -> has_name x ps = true.
Proof.
  induction kw as [|[k v] kw IH]; intros b b' x H Hb Hx; simpl in H.
  - inversion H; subst. auto.
  - destruct (has_name k b); [discriminate H|].
    destruct (has_name k ps) eqn:Ek; [|discriminate H].
    eapply IH; eauto.
    rewrite has_name_app. intros Hk.
    apply orb_true_iff in Hk as [Hk|Hk]; [auto|].
    simpl in Hk. rewrite orb_false_r in Hk.
    apply String.eqb_eq in Hk. subst. exact Ek.
Qed.

Lemma bind_defaults_names :
  forall (ps : params V) b b' x,
    bind_defaults ps b = Ok b' ->
    has_name x b' = true -> has_name x b = true \/ has_name x ps = true.
Proof.
  induction ps as [|[y d] ps IH]; intros b b' x H Hx; simpl in H.
  - inversion H; subst. auto.
  - assert (Hps : has_name x ps = true ->
                   has_name x b = true \/ has_name x ((y, d) :: ps) = true).
    { intros Hp. right. simpl. rewrite Hp. apply orb_true_r. }
    destruct (has_name y b).
    + destruct (IH _ _ _ H Hx); auto.
    + destruct d as [v|]; [|discriminate H].
      destruct (IH _ _ _ H Hx) as [Hb|Hp]; [|auto].
      rewrite has_name_app in Hb.
      apply orb_true_iff in Hb as [Hb|Hb]; [auto|].
      simpl in Hb. rewrite orb_false_r in Hb.
      right. simpl. rewrite Hb. reflexivity.
Qed.

(** A call binds parameter names only. *)
Lemma bind_args_names (ps : params V) pos kw locals x :
  bind_args ps pos kw = Ok locals ->
  has_name x ps = false -> lookup x locals = None.
Proof.
  unfold bind_args. intros H Hps. apply lookup_absent.
  destruct (bind_positional ps pos) as [[b rest]|] eqn:E1; simpl in H;
    [|discriminate H].
  destruct (bind_keywords ps b kw) as [b1|] eqn:E2; simpl in H;
    [|discriminate H].
  destruct (has_name x locals) eqn:Hx; [|reflexivity].
  destruct (bind_defaults_names _ _ x H Hx) as [H1|H1]; [|congruence].
  assert (has_name x ps = true); [|congruence].
  eapply bind_keywords_names; eauto.
  intros Hb. eapply bind_positional_names; eauto.
Qed.

End CallFacts.

(** ** Arrays *)

Section ArrayFacts.

Lemma norm_index_first (n : nat) : (0 < n)%nat -> norm_index n 0 = Ok 0%nat.
Proof.
  intros H. unfold norm_index. simpl.
  destruct (Z.ltb_spec 0 (Z.of_nat n)); [reflexivity | lia].
Qed.

Lemma norm_index_last (n : nat) :
  (0 < n)%nat -> norm_index n (-1) = Ok (n - 1)%nat.
Proof.
  intros H. unfold norm_index.
  destruct (Z.leb_spec 0 (-1)); [lia|].
  destruct (Z.leb_spec (- Z.of_nat n) (-1)); [|lia].
  f_equal. lia.
Qed.

Lemma norm_index_bound (n : nat) (i : Z) (k : nat) :
  norm_index n i = Ok k -> (k < n)%nat.
Proof.
  unfold norm_index. intros H.
  destruct (Z.leb_spec 0 i).
  - destruct (Z.ltb_spec i (Z.of_nat n)); inversion H; lia.
  - destruct (Z.leb_spec (- Z.of_nat n) i); inversion H; lia.
Qed.

Lemma item_nth {A} (l : list A) (i : Z) (k : nat) (d : A) :
  norm_index (length l) i = Ok k -> item l i = Ok (nth k l d).
Proof.
  intros H. unfold item. rewrite H. simpl.
  pose proof (norm_index_bound _ _ H) as Hk.
  destruct (nth_error l k) as [x|] eqn:E.
  - f_equal. symmetry. apply nth_error_nth. exact E.
  - apply nth_error_None in E. lia.
Qed.

Lemma has_shape_row (nx ny : nat) (a : field) (i : nat) :
  has_shape nx ny a -> (i < nx)%nat -> length (nth i a []) = ny.
Proof.
  intros [Hl Hr] Hi. rewrite Forall_forall in Hr. apply Hr.
  apply nth_In. lia.
Qed.

Lemma has_shape_ncols (nx ny : nat) (a : field) :
  has_shape nx ny a -> (0 < nx)%nat -> ncols a = ny.
Proof.
  intros H Hn. unfold ncols.
  rewrite <- (has_shape_row (i:=0) H Hn). destruct a; reflexivity.
Qed.

Lemma zip_with_length {A B C} (f : A -> B -> C) (l : list A) (m : list B) :
  length l = length m -> length (zip_with f l m) = length l.
Proof.
  revert m. induction l as [|x l IH]; intros [|y m] H; simpl in *;
    try discriminate; auto.
Qed.

Lemma zip_with_nth {A B C} (f : A -> B -> C) (l : list A) (m : list B)
      (i : nat) (da : A) (db : B) (dc : C) :
  length l = length m -> (i < length l)%nat ->
  nth i (zip_with f l m) dc = f (nth i l da) (nth i m db).
Proof.
  revert m i. induction l as [|x l IH]; intros [|y m] i H Hi; simpl in *;
    try discriminate; try lia.
  destruct i; [reflexivity|]. apply IH; lia.
Qed.

Lemma set_nth_length {A} (k : nat) (x : A) (l : list A) :
  length (set_nth k x l) = length l.
Proof.
  revert k. induction l as [|y l IH]; intros [|k]; simpl; auto.
Qed.

Lemma set_nth_nth {A} (k : nat) (x : A) (l : list A) (i : nat) (d : A) :
  (k < length l)%nat ->
  nth i (set_nth k x l) d = if Nat.eqb i k then x else nth i l d.
Proof.
  revert k i. induction l as [|y l IH]; intros k i H; simpl in H; [lia|].
  destruct k, i; simpl; try reflexivity. apply IH. lia.
Qed.

Lemma same_shape_has_shape (nx ny : nat) (a b : field) :
  has_shape nx ny a -> has_shape nx ny b -> same_shape a b = true.
Proof.
  revert nx b. induction a as [|r a IH]; intros nx [|s b] [Ha Hra] [Hb Hrb];
    simpl in *; subst; try discriminate; [reflexivity|].
  inversion Hra; inversion Hrb; subst.
  apply andb_true_iff. split.
  - apply Nat.eqb_eq. congruence.
  - apply (IH (length a)); split; auto.
Qed.

Lemma has_shape_fmap (f : Q -> Q) (nx ny : nat) (a : field) :
  has_shape nx ny a -> has_shape nx ny (fmap f a).
Proof.
  intros [Hl Hr]. split.
  - unfold fmap. rewrite length_map. exact Hl.
  - unfold fmap. apply Forall_map. eapply Forall_impl; [|exact Hr].
    simpl. intros r Hlen. rewrite length_map. exact Hlen.
Qed.

Lemma entry_fmap (f : Q -> Q) (nx ny : nat) (a : field) (i j : nat) :
  has_shape nx ny a -> (i < nx)%nat -> (j < ny)%nat ->
  entry (fmap f a) i j = f (entry a i j).
Proof.
  intros H Hi Hj. unfold entry, fmap.
  pose proof (has_shape_row H Hi) as Hr. destruct H as [Hl _].
  rewrite (nth_indep _ [] (map f [])) by (rewrite length_map; lia).
  rewrite map_nth.
  rewrite (nth_indep _ 0 (f 0)) by (rewrite length_map; lia).
  apply map_nth.
Qed.

Lemma has_shape_zip (f : Q -> Q -> Q) (nx ny : nat) (a b : field) :
  has_shape nx ny a -> has_shape nx ny b ->
  has_shape nx ny (zip_with (zip_with f) a b).
Proof.
  revert nx b. induction a as [|r a IH]; intros nx [|s b] [Ha Hra] [Hb Hrb];
    simpl in *; subst; try discriminate; [split; auto|].
  inversion Hra; inversion Hrb; subst.
  destruct (IH (length a) b) as [Hl Hr]; [split; auto | split; auto; lia |].
  split; simpl; [congruence|].
  constructor; [|exact Hr]. apply zip_with_length. congruence.
Qed.

Lemma entry_zip (f : Q -> Q -> Q) (nx ny : nat) (a b : field) (i j : nat) :
  has_shape nx ny a -> has_shape nx ny b -> (i < nx)%nat -> (j < ny)%nat ->
  entry (zip_with (zip_with f) a b) i j = f (entry a i j) (entry b i j).
Proof.
  intros Ha Hb Hi Hj. unfold entry.
  pose proof (has_shape_row Ha Hi) as Hra.
  pose proof (has_shape_row Hb Hi) as Hrb.
  destruct Ha as [Hla _], Hb as [Hlb _].
  rewrite (zip_with_nth (zip_with f) a b [] [] []) by lia.
  apply zip_with_nth; lia.
Qed.

(** [a[i,:] = v] on an array of shape [(nx, ny)]. *)
Lemma set_row_spec (nx ny : nat) (a : field) (i : Z) (k : nat) (v : vec) :
  has_shape nx ny a -> norm_index nx i = Ok k -> length v = ny ->
  exists a', set_row a i v = Ok a' /\ has_shape nx ny a' /\
    forall i' j, entry a' i' j
                 = if Nat.eqb i' k then nth j v 0 else entry a i' j.
Proof.
  intros H Hi Hv. pose proof (norm_index_bound _ _ Hi) as Hk.
  exists (set_nth k v a). unfold set_row.
  destruct H as [Hl Hr]. rewrite Hl, Hi. simpl.
  rewrite (has_shape_ncols (conj Hl Hr)) by lia.
  rewrite Hv, Nat.eqb_refl. split; [reflexivity|]. split.
  - split; [rewrite set_nth_length; exact Hl|].
    rewrite Forall_forall in *. intros r Hin.
    destruct (In_nth _ _ [] Hin) as [n [Hn Hnth]].
    rewrite set_nth_length in Hn.
    rewrite set_nth_nth in Hnth by lia.
    destruct (Nat.eqb n k); subst; [reflexivity|].
    apply Hr. apply nth_In. exact Hn.
  - intros i' j. unfold entry. rewrite set_nth_nth by lia.
    destruct (Nat.eqb i' k); reflexivity.
Qed.

(** [a[:,j] = v] on an array of shape [(nx, ny)]. *)
Lemma set_col_spec (nx ny : nat) (a : field) (j : Z) (k : nat) (v : vec) :
  has_shape nx ny a -> (0 < nx)%nat -> norm_index ny j = Ok k ->
  length v = nx ->
  exists a', set_col a j v = Ok a' /\ has_shape nx ny a' /\
    forall i j', (i < nx)%nat ->
      entry a' i j' = if Nat.eqb j' k then nth i v 0 else entry a i j'.
Proof.
  intros H Hn Hj Hv. pose proof (norm_index_bound _ _ Hj) as Hk.
  exists (zip_with (fun r x => set_nth k x r) a v). unfold set_col.
  rewrite (has_shape_ncols H Hn), Hj. simpl.
  destruct H as [Hl Hr]. rewrite Hv, Hl, Nat.eqb_refl.
  split; [reflexivity|]. split.
  - split; [rewrite zip_with_length; lia|].
    rewrite Forall_forall in *. intros r Hin.
    destruct (In_nth _ _ [] Hin) as [n [Hlt Hnth]].
    rewrite zip_with_length in Hlt by lia.
    rewrite (zip_with_nth _ a v [] 0 []) in Hnth by lia.
    subst r. rewrite set_nth_length. apply Hr. apply nth_In. exact Hlt.
  - intros i j' Hi. unfold entry.
    rewrite (zip_with_nth _ a v [] 0 []) by lia.
    assert (Hlen : length (nth i a []) = ny).
    { rewrite Forall_forall in Hr. apply Hr. apply nth_In. lia. }
    rewrite set_nth_nth by lia. reflexivity.
Qed.

Lemma row_spec (nx ny : nat) (a : field) (i : Z) (k : nat) :
  has_shape nx ny a -> norm_index nx i = Ok k ->
  row a i = Ok (nth k a []) /\ length (nth k a []) = ny.
Proof.
  intros H Hi. pose proof (norm_index_bound _ _ Hi) as Hk. split.
  - unfold row. apply item_nth. destruct H as [Hl _]. rewrite Hl. exact Hi.
  - apply (has_shape_row H Hk).
Qed.

Lemma col_spec (nx ny : nat) (a : field) (j : Z) (k : nat) :
  has_shape nx ny a -> (0 < nx)%nat -> norm_index ny j = Ok k ->
  exists v, col a j = Ok v /\ length v = nx /\
            forall i, (i < nx)%nat -> nth i v 0 = entry a i k.
Proof.
  intros H Hn Hj. exists (map (fun r => nth k r 0) a). unfold col.
  rewrite (has_shape_ncols H Hn), Hj. destruct H as [Hl Hr].
  split; [reflexivity|]. split; [rewrite length_map; exact Hl|].
  intros i Hi. unfold entry.
  rewrite (nth_indep _ 0 ((fun r => nth k r 0) [])) by (rewrite length_map; lia).
  apply (map_nth (fun r => nth k r 0)).
Qed.

Lemma norm_index_nat (n i : nat) :
  (i < n)%nat -> norm_index n (Z.of_nat i) = Ok i.
Proof.
  intros H. unfold norm_index.
  destruct (Z.leb_spec 0 (Z.of_nat i)); [|lia].
  destruct (Z.ltb_spec (Z.of_nat i) (Z.of_nat n)); [|lia].
  rewrite Nat2Z.id. reflexivity.
Qed.

Lemma at2_entry (nx ny : nat) (a : field) (i j : nat) :
  has_shape nx ny a -> (i < nx)%nat -> (j < ny)%nat ->
  at2 a (Z.of_nat i) (Z.of_nat j) = Ok (entry a i j).
Proof.
  intros H Hi Hj. unfold at2, entry.
  pose proof (has_shape_row H Hi) as Hr. destruct H as [Hl _].
  assert (Ei : norm_index (length a) (Z.of_nat i) = Ok i)
    by (rewrite Hl; apply norm_index_nat; exact Hi).
  rewrite (item_nth a _ [] Ei).
  simpl. apply item_nth. rewrite Hr. apply norm_index_nat. exact Hj.
Qed.

Lemma fill_row_ok (nx ny : nat) (a : field) (i : Z) (k : nat) (c : Q) :
  has_shape nx ny a -> norm_index nx i = Ok k ->
  exists a', fill_row a i c = Ok a' /\ has_shape nx ny a'.
Proof.
  intros H Hi. pose proof (norm_index_bound _ _ Hi) as Hk.
  unfold fill_row.
  destruct (set_row_spec i (repeat c (ncols a)) H Hi) as (a' & E & Hs & _).
  - rewrite repeat_length. apply (has_shape_ncols H). lia.
  - exists a'. split; assumption.
Qed.

Lemma fill_col_ok (nx ny : nat) (a : field) (j : Z) (k : nat) (c : Q) :
  has_shape nx ny a -> (0 < nx)%nat -> norm_index ny j = Ok k ->
  exists a', fill_col a j c = Ok a' /\ has_shape nx ny a'.
Proof.
  intros H Hn Hj. unfold fill_col.
  destruct (set_col_spec j (repeat c (length a)) H Hn Hj) as (a' & E & Hs & _).
  - rewrite repeat_length. destruct H as [Hl _]. exact Hl.
  - exists a'. split; assumption.
Qed.

(** Writing the four edges of an array that has a row and a column
    succeeds and keeps the shape. *)
Lemma fill_edges_ok (nx ny : nat) (a : field) (c : Q) :
  has_shape nx ny a -> (0 < nx)%nat -> (0 < ny)%nat ->
  exists a', fill_edges a c = Ok a' /\ has_shape nx ny a'.
Proof.
  intros H Hnx Hny. unfold fill_edges.
  destruct (fill_row_ok 0 c H (norm_index_first Hnx)) as (a1 & E1 & H1).
  rewrite E1. simpl.
  destruct (fill_col_ok 0 c H1 Hnx (norm_index_first Hny)) as (a2 & E2 & H2).
  rewrite E2. simpl.
  destruct (fill_row_ok (-1) c H2 (norm_index_last Hnx)) as (a3 & E3 & H3).
  rewrite E3. simpl.
  exact (fill_col_ok (-1) c H3 Hnx (norm_index_last Hny)).
Qed.

Lemma has_shape_map_seq (f : nat -> vec) (nx ny : nat) :
  (forall i, length (f i) = ny) -> has_shape nx ny (map f (seq 0 nx)).
Proof.
  intros H. split.
  - rewrite length_map, length_seq. reflexivity.
  - apply Forall_map. apply Forall_forall. intros i _. apply H.
Qed.

Lemma qeq_bool_false (x y : Q) : ~ x == y -> Qeq_bool x y = false.
Proof.
  intros H. destruct (Qeq_bool x y) eqn:E; [|reflexivity].
  apply Qeq_bool_eq in E. contradiction.
Qed.

Lemma py_div_ok (a b : Q) : ~ b == 0 -> py_div a b = Ok (a / b).
Proof. intros H. unfold py_div. rewrite (qeq_bool_false H). reflexivity. Qed.

Lemma inject_Z_nonzero (z : Z) : z <> 0%Z -> ~ inject_Z z == 0.
Proof.
  intros H E. apply H. unfold Qeq in E. simpl in E. lia.
Qed.

Lemma linspace01_ok (n : Z) :
  (2 <= n)%Z ->
  exists l, linspace01 n = Ok l /\ length l = Z.to_nat n.
Proof.
  intros H. unfold linspace01.
  destruct (Z.ltb_spec n 0); [lia|].
  destruct (Z.eqb_spec n 1); [lia|].
  eexists. split; [reflexivity|].
  rewrite length_map, length_seq. reflexivity.
Qed.

Lemma meshgrid_ij_shape (x y : vec) :
  has_shape (length x) (length y) (fst (meshgrid_ij x y)) /\
  has_shape (length x) (length y) (snd (meshgrid_ij x y)).
Proof.
  unfold meshgrid_ij. simpl. split; split;
    try (rewrite length_map; reflexivity);
    apply Forall_map; apply Forall_forall; intros v _.
  - rewrite length_map. reflexivity.
  - reflexivity.
Qed.

Lemma nth_repeat_lt {A} (x d : A) (n j : nat) :
  (j < n)%nat -> nth j (repeat x n) d = x.
Proof.
  revert j. induction n as [|n IH]; intros j H; [lia|].
  destruct j; simpl; [reflexivity | apply IH; lia].
Qed.

Lemma nth_map_seq {A} (f : nat -> A) (d : A) (n i : nat) :
  (i < n)%nat -> nth i (map f (seq 0 n)) d = f i.
Proof.
  intros H. rewrite (nth_indep _ d (f 0%nat))
    by (rewrite length_map, length_seq; exact H).
  rewrite map_nth, seq_nth by exact H. reflexivity.
Qed.

End ArrayFacts.

(** ** Romberg integration *)

Section RombFacts.

Lemma romb_levels_spec (N : nat) :
  forall fuel n k,
    n = (2 ^ k)%nat -> (N <= fuel + n)%nat ->
    n = fst (romb_levels fuel n k N) \/
    (fst (romb_levels fuel n k N) < 2 * N)%nat.
Proof.
  induction fuel as [|fuel IH]; intros n k Hn Hf; cbn [romb_levels];
    [left; reflexivity|].
  destruct (Nat.ltb_spec n N) as [Hlt|Hge]; [|left; reflexivity].
  right.
  assert (Hpos : (1 <= n)%nat).
  { subst n. pose proof (Nat.pow_nonzero 2 k). lia. }
  destruct (IH (2 * n)%nat (S k)) as [E|E].
  - rewrite Nat.pow_succ_r'. lia.
  - lia.
  - rewrite <- E. lia.
  - exact E.
Qed.

Lemma romb_levels_pow (N : nat) :
  forall fuel n k,
    n = (2 ^ k)%nat -> (N <= fuel + n)%nat ->
    fst (romb_levels fuel n k N) = (2 ^ snd (romb_levels fuel n k N))%nat /\
    (N <= fst (romb_levels fuel n k N))%nat.
Proof.
  induction fuel as [|fuel IH]; intros n k Hn Hf; cbn [romb_levels].
  - split; [exact Hn | simpl; lia].
  - destruct (Nat.ltb_spec n N) as [Hlt|Hge];
      [|split; [exact Hn | simpl; lia]].
    assert (Hpos : (1 <= n)%nat).
    { subst n. pose proof (Nat.pow_nonzero 2 k). lia. }
    apply IH; [rewrite Nat.pow_succ_r'; lia | lia].
Qed.

(** [romb] accepts [2^k + 1] samples and no other number of them. *)
Lemma romb1_accepts (y : vec) :
  (exists I, romb1 y = Ok I) <-> romb_size (length y).
Proof.
  unfold romb1, romb_size. destruct (length y) as [|N].
  - split; [intros [I H]; discriminate H|].
    intros [k Hk]. pose proof (Nat.pow_nonzero 2 k). lia.
  - pose proof (@romb_levels_spec N N 1%nat 0%nat eq_refl) as Hs.
    pose proof (@romb_levels_pow N N 1%nat 0%nat eq_refl) as Hp.
    destruct (romb_levels N 1 0 N) as [n k] eqn:El. simpl in Hs, Hp.
    destruct Hp as [Hn HN]; [lia|]. specialize (Hs ltac:(lia)).
    destruct (Nat.eqb_spec n N) as [E|E].
    + split; [|intros _; eexists; reflexivity].
      intros _. exists k. lia.
    + split; [intros [I H]; discriminate H|].
      intros [j Hj]. exfalso. apply E.
      assert (HNj : N = (2 ^ j)%nat) by lia.
      destruct Hs as [H1|H2].
      * pose proof (Nat.pow_nonzero 2 j). lia.
      * assert (Hkj : (k < S j)%nat).
        { apply (Nat.pow_lt_mono_r_iff 2); [lia|].
          rewrite Nat.pow_succ_r'. lia. }
        assert ((2 ^ k <= 2 ^ j)%nat) by (apply Nat.pow_le_mono_r; lia).
        lia.
Qed.

Lemma romb1_rejects (y : vec) :
  ~ romb_size (length y) -> romb1 y = Raise ValueError.
Proof.
  intros H. destruct (romb1 y) as [I|e] eqn:E.
  - exfalso. apply H. apply romb1_accepts. exists I. exact E.
  - unfold romb1 in E. destruct (length y) as [|N]; [congruence|].
    destruct (romb_levels N 1 0 N) as [n k].
    destruct (Nat.eqb n N); [discriminate E | congruence].
Qed.

Lemma mapM_ok {A B} (f : A -> result B) (l : list A) (m : list B) :
  mapM f l = Ok m ->
  length m = length l /\ forall x, In x l -> exists y, f x = Ok y.
Proof.
  revert m. induction l as [|a l IH]; intros m H; simpl in H.
  - inversion H. split; [reflexivity | intros x []].
  - destruct (f a) as [b|e] eqn:Ea; simpl in H; [|discriminate H].
    destruct (mapM f l) as [bs|e]; simpl in H; [|discriminate H].
    inversion H; subst. destruct (IH bs eq_refl) as [Hl Hin].
    split; [simpl; congruence|].
    intros x [<-|Hx]; [exists b; exact Ea | apply Hin; exact Hx].
Qed.

(** The double integral needs a Romberg size along each axis. *)
Lemma romb_romb_sizes (nx ny : nat) (J : field) (I : Q) :
  has_shape nx ny J -> (0 < nx)%nat -> equilibrium.romb_romb J = Ok I ->
  romb_size nx /\ romb_size ny.
Proof.
  intros [Hl Hr] Hnx H. unfold equilibrium.romb_romb, romb2 in H.
  destruct (mapM romb1 J) as [inner|e] eqn:Em; simpl in H; [|discriminate H].
  destruct (mapM_ok _ _ Em) as [Hlen Hrows]. split.
  - rewrite <- Hl, <- Hlen. apply romb1_accepts. exists I. exact H.
  - destruct J as [|r J]; [simpl in Hl; lia|].
    assert (Hr0 : length r = ny)
      by (rewrite Forall_forall in Hr; apply Hr; left; reflexivity).
    rewrite <- Hr0. apply romb1_accepts. apply Hrows. left. reflexivity.
Qed.

End RombFacts.

(** ** The Equilibrium object *)

Section EquilibriumFacts.

Context {T G P Sp Gen Sv B : Type}.
Context {machine : Machine T G} {profile : Profile P}
        {interp : Interpolate Sp} {mg : Multigrid Gen Sv}
        {bnd : equilibrium.Boundary T G P Sp Sv B} {floats : Floats}.

Import equilibrium.

#[local] Abbreviation EqT := (Equilibrium T G P Sp Sv B).
#[local] Abbreviation value := (pyval T G P Sp Sv B).

Lemma lift_raise {S A} (e : exn) (s : S) : lift (@Raise A e) s = Failed e s.
Proof. reflexivity. Qed.

Lemma load_name_Zmin (as_main : bool) (locals : env value) :
  lookup "Zmin"%string locals = None ->
  load_name locals (module_globals as_main) "Zmin"%string = Raise NameError.
Proof.
  intros H. unfold load_name. rewrite H. destruct as_main; reflexivity.
Qed.

(** The body cannot get past its first statement: [Zmin] is no parameter
    and no global. *)
Lemma setSolverVcycle_body_raises (as_main : bool) (locals : env value)
      (self : EqT) :
  lookup "Zmin"%string locals = None ->
  exists e, setSolverVcycle_body as_main locals self = Failed e self.
Proof.
  intros H. unfold setSolverVcycle_body, Py.bind.
  rewrite (load_name_Zmin as_main locals H).
  destruct (load_name locals (module_globals as_main) "Rmin"%string)
    as [v1|e1]; simpl; [|eexists; reflexivity].
  destruct (as_float v1) as [a|e1]; simpl; [|eexists; reflexivity].
  destruct (load_name locals (module_globals as_main) "Rmax"%string)
    as [v2|e2]; simpl; [|eexists; reflexivity].
  destruct (as_float v2) as [b|e2]; simpl; eexists; reflexivity.
Qed.

(** C7 (as the code has it). A call [eq.setSolverVcycle(...)], whatever its
    arguments, raises and leaves the object, its stored solver included, as
    it was: the parameter list lacks [self], so the object is taken for
    [nlevels], and the body reads names that are bound nowhere. *)
Theorem setSolverVcycle_always_raises (as_main : bool) (args : list value)
        (kw : env value) (eq : EqT) :
  exists e, setSolverVcycle as_main args kw eq = Failed e eq.
Proof.
  unfold setSolverVcycle, call_method.
  destruct (bind_args setSolverVcycle_params (VEq eq :: args) kw)
    as [locals|e] eqn:E.
  - apply setSolverVcycle_body_raises.
    eapply bind_args_names; [exact E | reflexivity].
  - exists e. reflexivity.
Qed.

(** With keywords the call does not even reach the body. *)
Lemma setSolverVcycle_keywords (as_main : bool) (eq : EqT)
      (nlevels ncycle niter : Z) :
  setSolverVcycle as_main []
    [("nlevels"%string, VInt nlevels); ("ncycle"%string, VInt ncycle);
     ("niter"%string, VInt niter)] eq
  = Failed TypeError eq.
Proof. reflexivity. Qed.

(** Positionally, it stops at the first free name. *)
Lemma setSolverVcycle_positional (eq : EqT)
      (nlevels ncycle niter : Z) :
  setSolverVcycle false [VInt nlevels; VInt ncycle; VInt niter] [] eq
  = Failed NameError eq.
Proof. reflexivity. Qed.

(** [Equilibrium.solve] takes [profiles] and nothing else. *)
Lemma solve_rejects_keywords (eq : EqT) (p : P) (k : string)
      (v : value) (kw : env value) :
  k <> "self"%string -> k <> "profiles"%string ->
  solve [VProfiles p] ((k, v) :: kw) eq = Failed TypeError eq.
Proof.
  intros H1 H2. unfold solve, call_method, bind_args. simpl.
  apply String.eqb_neq in H1, H2. rewrite H1, H2. reflexivity.
Qed.

Lemma solve_positional (eq : EqT) (p : P) :
  solve [VProfiles p] [] eq = solve_body p eq.
Proof. reflexivity. Qed.

(** *** The right hand side *)

Lemma solve_rhs_spec (nx ny : nat) (R J psi : field) :
  has_shape nx ny R -> has_shape nx ny J -> has_shape nx ny psi ->
  (0 < nx)%nat -> (0 < ny)%nat ->
  exists rhs,
    solve_rhs R J psi = Ok rhs /\ has_shape nx ny rhs /\
    forall i j, (i < nx)%nat -> (j < ny)%nat ->
      entry rhs i j = if on_edge nx ny i j then entry psi i j
                      else - mu0 * entry R i j * entry J i j.
Proof.
  intros HR HJ Hpsi Hnx Hny. unfold solve_rhs, mul, elementwise, scale.
  pose proof (has_shape_fmap (Qmult (- mu0)) HR) as HsR.
  rewrite (same_shape_has_shape HsR HJ). simpl.
  pose proof (has_shape_zip Qmult HsR HJ) as H0.
  set (rhs0 := zip_with (zip_with Qmult) (fmap (Qmult (- mu0)) R) J) in *.
  destruct (row_spec 0 Hpsi (norm_index_first Hnx)) as [Er0 Lr0].
  rewrite Er0. simpl.
  destruct (set_row_spec 0 _ H0 (norm_index_first Hnx) Lr0)
    as (rhs1 & E1 & H1 & S1).
  rewrite E1. simpl.
  destruct (col_spec 0 Hpsi Hnx (norm_index_first Hny)) as (c0 & Ec0 & Lc0 & V0).
  rewrite Ec0. simpl.
  destruct (set_col_spec 0 _ H1 Hnx (norm_index_first Hny) Lc0)
    as (rhs2 & E2 & H2 & S2).
  rewrite E2. simpl.
  destruct (row_spec (-1) Hpsi (norm_index_last Hnx)) as [Er1 Lr1].
  rewrite Er1. simpl.
  destruct (set_row_spec (-1) _ H2 (norm_index_last Hnx) Lr1)
    as (rhs3 & E3 & H3 & S3).
  rewrite E3. simpl.
  destruct (col_spec (-1) Hpsi Hnx (norm_index_last Hny)) as (c1 & Ec1 & Lc1 & V1).
  rewrite Ec1. simpl.
  destruct (set_col_spec (-1) _ H3 Hnx (norm_index_last Hny) Lc1)
    as (rhs4 & E4 & H4 & S4).
  exists rhs4. split; [exact E4|]. split; [exact H4|].
  intros i j Hi Hj. rewrite (S4 i j Hi), S3, (S2 i j Hi), S1.
  rewrite (V0 i Hi), (V1 i Hi). unfold on_edge.
  assert (Hbase : entry rhs0 i j = - mu0 * entry R i j * entry J i j).
  { unfold rhs0. rewrite (entry_zip Qmult HsR HJ Hi Hj).
    rewrite (entry_fmap (Qmult (- mu0)) HR Hi Hj).
    reflexivity. }
  unfold entry in *.
  destruct (Nat.eqb_spec j (ny - 1)) as [->|]; [rewrite !orb_true_r; reflexivity|].
  destruct (Nat.eqb_spec i (nx - 1)) as [->|];
    [rewrite orb_true_r; reflexivity|].
  destruct (Nat.eqb_spec j 0) as [->|]; [rewrite orb_true_r; reflexivity|].
  destruct (Nat.eqb_spec i 0) as [->|]; [reflexivity|].
  exact Hbase.
Qed.

Lemma solve_boundary_frame (J : field) (self self1 : EqT) :
  solve_boundary J self = Done tt self1 ->
  exists psi', self1 = with_plasma_psi psi' self.
Proof.
  unfold solve_boundary. intros H.
  destruct (apply_boundary (_applyBoundary self) self J (plasma_psi self))
    as [u psi'|e psi']; inversion H. exists psi'. reflexivity.
Qed.

(** C5. In [Equilibrium.solve], once the profiles have given the current
    density [J] and the boundary strategy has run (leaving the object
    [eq1]), the array handed to the linear solver as right hand side is
    [-mu0 * R * J] at every interior point, and on the first and last rows
    and columns it is the plasma flux of [eq1], the flux as the boundary
    strategy left it. *)
Theorem solve_right_hand_side (profiles : P) (eq eq1 : EqT) (J : field)
        (nx ny : nat) :
  solve_Jtor profiles eq = Ok J ->
  solve_boundary J (with_profiles (Some profiles) eq) = Done tt eq1 ->
  has_shape nx ny (Rgrid eq) -> has_shape nx ny J ->
  has_shape nx ny (plasma_psi eq1) ->
  (0 < nx)%nat -> (0 < ny)%nat ->
  exists rhs,
    has_shape nx ny rhs /\
    (forall i j, (i < nx)%nat -> (j < ny)%nat ->
       entry rhs i j = if on_edge nx ny i j then entry (plasma_psi eq1) i j
                       else - mu0 * entry (Rgrid eq) i j * entry J i j) /\
    solve_body profiles eq
    = match call_solver (_solver eq) (plasma_psi eq1) rhs with
      | Ok psi' => (_updatePlasmaPsi psi' ;;; solve_current J)%py eq1
      | Raise e => Failed e eq1
      end.
Proof.
  intros HJ Hb HR HsJ Hpsi Hnx Hny.
  destruct (solve_boundary_frame _ _ Hb) as [psi' ->].
  simpl in Hpsi.
  destruct (solve_rhs_spec HR HsJ Hpsi Hnx Hny) as (rhs & E & Hs & Hent).
  exists rhs. split; [exact Hs|]. split; [exact Hent|].
  unfold solve_body, Py.bind at 1 2 3. simpl.
  change (solve_Jtor profiles (with_profiles (Some profiles) eq))
    with (solve_Jtor profiles eq).
  rewrite HJ. simpl. unfold Py.bind at 1. rewrite Hb.
  unfold Py.bind at 1 2. simpl. rewrite E. simpl.
  unfold Py.bind at 1. simpl.
  destruct (call_solver (_solver eq) psi' rhs); reflexivity.
Qed.

(** *** The magnetic field *)

Lemma np_div_finite (a b : Q) : ~ b == 0 -> np_div a b = Finite (a / b).
Proof.
  intros H. unfold np_div. destruct (Qeq_bool b 0) eqn:E; [|reflexivity].
  apply Qeq_bool_eq in E. contradiction.
Qed.

(** C10. At a point with [R > 0], where the stored spline gives the
    derivatives [dpsi_dZ] (order 0 in [R], 1 in [Z]) and [dpsi_dR] (order 1
    in [R], 0 in [Z]) of the plasma flux, [plasmaBr] is
    [-(1/R) * dpsi_dZ] and [plasmaBz] is [(1/R) * dpsi_dR]; the total [Br]
    and [Bz] add the field of the machine to them; and none of the four
    depends on the linear solver the object holds. *)
Theorem plasma_field_from_spline (eq : EqT) (R Z dpsi_dZ dpsi_dR : Q) :
  0 < R ->
  (let? a := spline_call (psi_func eq) R Z 0 1 in item00 a) = Ok dpsi_dZ ->
  (let? a := spline_call (psi_func eq) R Z 1 0 in item00 a) = Ok dpsi_dR ->
  exists br bz,
    plasmaBr eq R Z = Ok (Finite br) /\ br == - (1 / R) * dpsi_dZ /\
    plasmaBz eq R Z = Ok (Finite bz) /\ bz == (1 / R) * dpsi_dR /\
    Br eq R Z = Ok (Finite (br + machine_Br (tokamak eq) R Z)) /\
    Bz eq R Z = Ok (Finite (bz + machine_Bz (tokamak eq) R Z)) /\
    forall s, plasmaBr (with_solver s eq) R Z = plasmaBr eq R Z /\
              plasmaBz (with_solver s eq) R Z = plasmaBz eq R Z.
Proof.
  intros HR Hz Hr.
  assert (HR0 : ~ R == 0) by (intros E; rewrite E in HR; discriminate HR).
  exists (- dpsi_dZ / R), (dpsi_dR / R).
  assert (Ebr : plasmaBr eq R Z = Ok (Finite (- dpsi_dZ / R))).
  { unfold plasmaBr.
    destruct (spline_call (psi_func eq) R Z 0 1) as [a|e]; simpl in *;
      [|discriminate Hz].
    rewrite Hz. simpl. rewrite (np_div_finite _ HR0). reflexivity. }
  assert (Ebz : plasmaBz eq R Z = Ok (Finite (dpsi_dR / R))).
  { unfold plasmaBz.
    destruct (spline_call (psi_func eq) R Z 1 0) as [a|e]; simpl in *;
      [|discriminate Hr].
    rewrite Hr. simpl. rewrite (np_div_finite _ HR0). reflexivity. }
  repeat split.
  - exact Ebr.
  - field. exact HR0.
  - exact Ebz.
  - field. exact HR0.
  - unfold Br. rewrite Ebr. reflexivity.
  - unfold Bz. rewrite Ebz. reflexivity.
Qed.

(** *** What a solve leaves behind *)

Lemma update_done (psi : field) (self self' : EqT) :
  _updatePlasmaPsi psi self = Done tt self' ->
  exists f, spline_over (Rgrid self) (Zgrid self) psi = Ok f /\
            self' = with_psi_func f (with_plasma_psi psi self).
Proof.
  unfold _updatePlasmaPsi, Py.bind. simpl.
  destruct (spline_over (Rgrid self) (Zgrid self) psi) as [f|e]; simpl;
    intros H; inversion H. exists f. split; reflexivity.
Qed.

Lemma update_spline_current (psi : field) (self self' : EqT) :
  _updatePlasmaPsi psi self = Done tt self' ->
  spline_current self' /\ plasma_psi self' = psi.
Proof.
  intros H. destruct (update_done _ _ H) as (f & E & ->).
  split; [exact E | reflexivity].
Qed.

(** A solve that returns has gone through every step: the current
    density, the boundary strategy, the linear solve, the update of flux
    and spline, and the integration of the current. *)
Lemma solve_body_done (profiles : P) (eq eq' : EqT) :
  solve_body profiles eq = Done tt eq' ->
  exists J eq1 rhs psi' f r10 r00 z01 z00 I,
    solve_Jtor profiles eq = Ok J /\
    solve_boundary J (with_profiles (Some profiles) eq) = Done tt eq1 /\
    solve_rhs (Rgrid eq) J (plasma_psi eq1) = Ok rhs /\
    call_solver (_solver eq) (plasma_psi eq1) rhs = Ok psi' /\
    spline_over (Rgrid eq) (Zgrid eq) psi' = Ok f /\
    at2 (Rgrid eq) 1 0 = Ok r10 /\ at2 (Rgrid eq) 0 0 = Ok r00 /\
    at2 (Zgrid eq) 0 1 = Ok z01 /\ at2 (Zgrid eq) 0 0 = Ok z00 /\
    romb_romb J = Ok I /\
    eq' = with_current (I * (r10 - r00) * (z01 - z00))
            (with_psi_func f (with_plasma_psi psi' eq1)).
Proof.
  unfold solve_body, Py.bind at 1 2 3. simpl.
  change (solve_Jtor profiles (with_profiles (Some profiles) eq))
    with (solve_Jtor profiles eq).
  destruct (solve_Jtor profiles eq) as [J|e]; simpl; [|discriminate].
  unfold Py.bind at 1.
  destruct (solve_boundary J (with_profiles (Some profiles) eq))
    as [[] eq1|e eq1] eqn:Eb; [|discriminate].
  destruct (solve_boundary_frame _ _ Eb) as [psi_b ->].
  unfold Py.bind at 1 2. simpl.
  destruct (solve_rhs (Rgrid eq) J psi_b) as [rhs|e] eqn:Er; simpl;
    [|discriminate].
  unfold Py.bind at 1. simpl.
  destruct (call_solver (_solver eq) psi_b rhs) as [psi'|e] eqn:Es; simpl;
    [|discriminate].
  unfold Py.bind at 1.
  destruct (_updatePlasmaPsi psi'
              (with_plasma_psi psi_b (with_profiles (Some profiles) eq)))
    as [[] eq2|e eq2] eqn:Eu; [|discriminate].
  destruct (update_done _ _ Eu) as (f & Ef & ->). simpl in Ef.
  unfold solve_current, Py.bind. simpl.
  destruct (at2 (Rgrid eq) 1 0) as [r10|e] eqn:E1; simpl; [|discriminate].
  destruct (at2 (Rgrid eq) 0 0) as [r00|e] eqn:E2; simpl; [|discriminate].
  destruct (at2 (Zgrid eq) 0 1) as [z01|e] eqn:E3; simpl; [|discriminate].
  destruct (at2 (Zgrid eq) 0 0) as [z00|e] eqn:E4; simpl; [|discriminate].
  destruct (romb_romb J) as [I|e] eqn:E5; simpl; [|discriminate].
  intros H. inversion H.
  exists J, (with_plasma_psi psi_b (with_profiles (Some profiles) eq)),
    rhs, psi', f, r10, r00, z01, z00, I.
  simpl. repeat split; auto.
Qed.

Lemma solve_done (args : list value) (kw : env value) (eq eq' : EqT) :
  solve args kw eq = Done tt eq' ->
  exists profiles, solve_body profiles eq = Done tt eq'.
Proof.
  unfold solve, call_method.
  destruct (bind_args solve_params (VEq eq :: args) kw) as [locals|e];
    [|discriminate].
  destruct (lookup "profiles"%string locals) as [v|]; [|discriminate].
  unfold Py.bind. destruct (as_profiles v) as [p|e]; simpl; [|discriminate].
  intros H. exists p. exact H.
Qed.

(** *** Construction *)

(** C3 (as the code has it). The constructor makes no check on the form of
    [nx] and [ny]: for sizes of at least 2 and [Zmax] different from [Zmin]
    it gets as far as its three collaborator calls (the spline, the
    Green's table, the V-cycle solver) whatever the sizes are, raises only
    if one of these raises, and otherwise returns the object on the
    [nx] by [ny] grid. *)
Theorem init_makes_no_size_check (tok : T) (Rmin Rmax Zmin Zmax : Q)
        (nx ny : Z) (boundary : B) :
  (2 <= nx)%Z -> (2 <= ny)%Z -> ~ Zmax == Zmin ->
  exists psi0,
    has_shape (Z.to_nat nx) (Z.to_nat ny) psi0 /\
    Equilibrium_init P tok Rmin Rmax Zmin Zmax nx ny boundary
    = (let R := grid_R Rmin ((Rmax - Rmin) / inject_Z (nx - 1)) nx ny in
       let Z := grid_Z Zmin ((Zmax - Zmin) / inject_Z (ny - 1)) nx ny in
       let? f := spline_over R Z psi0 in
       let? pgreen := createPsiGreens tok R Z in
       let? solver := createVcycle nx ny (GSsparse Rmin Rmax Zmin Zmax)
                                   1 1 2 true in
       Ok (mkEquilibrium tok boundary Rmin Rmax Zmin Zmax R Z psi0 f pgreen
                         0 solver None)).
Proof.
  intros Hnx Hny HZ. unfold Equilibrium_init.
  rewrite (py_div_ok (Rmax - Rmin)) by (apply inject_Z_nonzero; lia).
  rewrite (py_div_ok (Zmax - Zmin)) by (apply inject_Z_nonzero; lia).
  rewrite (py_div_ok Zmax) by (intros E; apply HZ; lra).
  simpl.
  destruct (linspace01_ok Hnx) as (lx & Ex & Lx).
  destruct (linspace01_ok Hny) as (ly & Ey & Ly).
  rewrite Ex, Ey. simpl.
  destruct (meshgrid_ij_shape lx ly) as [Hxx Hyy].
  rewrite Lx, Ly in Hxx, Hyy.
  pose proof (has_shape_zip (bump (1 - Zmax / (Zmax - Zmin))) Hxx Hyy) as H0.
  simpl in H0.
  destruct (fill_edges_ok 0 H0) as (psi0 & E0 & Hs0); [lia | lia |].
  exists psi0. split; [exact Hs0|].
  rewrite E0. reflexivity.
Qed.

(** Whatever the arguments, an object the constructor returns carries the
    spline of its flux and no plasma current. *)
Lemma init_done (tok : T) (Rmin Rmax Zmin Zmax : Q) (nx ny : Z)
      (boundary : B) (eq : EqT) :
  Equilibrium_init P tok Rmin Rmax Zmin Zmax nx ny boundary = Ok eq ->
  spline_current eq /\ _current eq = 0 /\
  Rgrid eq = grid_R Rmin ((Rmax - Rmin) / inject_Z (nx - 1)) nx ny /\
  Zgrid eq = grid_Z Zmin ((Zmax - Zmin) / inject_Z (ny - 1)) nx ny.
Proof.
  unfold Equilibrium_init, py_div.
  destruct (Qeq_bool (inject_Z (nx - 1)) 0); simpl; [discriminate|].
  destruct (Qeq_bool (inject_Z (ny - 1)) 0); simpl; [discriminate|].
  destruct (Qeq_bool (Zmax - Zmin) 0); simpl; [discriminate|].
  destruct (linspace01 nx) as [lx|e]; simpl; [|discriminate].
  destruct (linspace01 ny) as [ly|e]; simpl; [|discriminate].
  match goal with |- context [fill_edges ?a 0] =>
    destruct (fill_edges a 0) as [psi0|e]; simpl; [|discriminate] end.
  match goal with |- context [spline_over ?R ?Z psi0] =>
    destruct (spline_over R Z psi0) as [f|e] eqn:Ef; simpl; [|discriminate] end.
  match goal with |- context [createPsiGreens ?t ?R ?Z] =>
    destruct (createPsiGreens t R Z) as [pg|e]; simpl; [|discriminate] end.
  match goal with |- context [createVcycle ?a ?b ?c ?d ?e ?f ?g] =>
    destruct (createVcycle a b c d e f g) as [sv|x]; simpl; [|discriminate] end.
  intros H. inversion H. subst eq. unfold spline_current. simpl.
  repeat split. exact Ef.
Qed.

Lemma grid_R_entry (Rmin dR : Q) (nx ny : Z) (i j : nat) :
  (i < Z.to_nat nx)%nat -> (j < Z.to_nat ny)%nat ->
  entry (grid_R Rmin dR nx ny) i j = Rmin + inject_Z (Z.of_nat i) * dR.
Proof.
  intros Hi Hj. unfold entry, grid_R.
  rewrite (nth_map_seq _ [] Hi). apply nth_repeat_lt. exact Hj.
Qed.

Lemma grid_Z_entry (Zmin dZ : Q) (nx ny : Z) (i j : nat) :
  (i < Z.to_nat nx)%nat -> (j < Z.to_nat ny)%nat ->
  entry (grid_Z Zmin dZ nx ny) i j = Zmin + inject_Z (Z.of_nat j) * dZ.
Proof.
  intros Hi Hj. unfold entry, grid_Z.
  rewrite (nth_map_seq _ [] Hi).
  exact (nth_map_seq (fun y => Zmin + inject_Z (Z.of_nat y) * dZ) 0 Hj).
Qed.

Lemma grid_R_shape (Rmin dR : Q) (nx ny : Z) :
  has_shape (Z.to_nat nx) (Z.to_nat ny) (grid_R Rmin dR nx ny).
Proof.
  apply has_shape_map_seq. intros i. apply repeat_length.
Qed.

Lemma grid_Z_shape (Zmin dZ : Q) (nx ny : Z) :
  has_shape (Z.to_nat nx) (Z.to_nat ny) (grid_Z Zmin dZ nx ny).
Proof.
  apply has_shape_map_seq. intros i. rewrite length_map, length_seq.
  reflexivity.
Qed.

(** A solve returns only on a grid of Romberg sizes: this is where a size
    that is not [2^k + 1] is turned down. *)
Lemma solve_needs_romb_sizes (profiles : P) (eq eq' : EqT) :
  solve_body profiles eq = Done tt eq' ->
  exists J, solve_Jtor profiles eq = Ok J /\
    forall nx ny, has_shape nx ny J -> (0 < nx)%nat ->
                  romb_size nx /\ romb_size ny.
Proof.
  intros H. destruct (solve_body_done _ _ H)
    as (J & eq1 & rhs & psi' & f & r10 & r00 & z01 & z00 & I
        & HJ & _ & _ & _ & _ & _ & _ & _ & _ & HI & _).
  exists J. split; [exact HJ|].
  intros nx ny Hs Hnx. exact (romb_romb_sizes Hs Hnx HI).
Qed.

(** *** Flux and spline *)

(** C8 (as the code has it). Whenever the constructor, [solve], [refine],
    [coarsen] or [_updatePlasmaPsi] returns, the object it returns or
    leaves carries the spline of its plasma flux: each of them sets the flux
    through [_updatePlasmaPsi] last. (The boundary strategy writes into the
    flux inside [solve] without it.) *)
Theorem returned_objects_carry_current_spline (eq : EqT) :
  returned_by eq -> spline_current eq.
Proof.
  intros H. destruct H as [tok Rmin Rmax Zmin Zmax nx ny b self H
                          |args kw self self' H
                          |eq0 self H|eq0 self H
                          |psi self self' H].
  - exact (proj1 (init_done _ _ _ _ _ _ _ _ H)).
  - destruct (solve_done _ _ _ H) as [p Hp].
    destruct (solve_body_done _ _ Hp)
      as (J & eq1 & rhs & psi' & f & r10 & r00 & z01 & z00 & I
          & _ & Hb & _ & _ & Hf & _ & _ & _ & _ & _ & ->).
    destruct (solve_boundary_frame _ _ Hb) as [psi_b ->].
    exact Hf.
  - unfold refine, regrid in H.
    destruct (interpolate (plasma_psi eq0)) as [psi|e]; simpl in H;
      [|discriminate H].
    match type of H with context [Equilibrium_init ?a ?b ?c ?d ?e ?f ?g ?h ?i] =>
      destruct (Equilibrium_init a b c d e f g h i) as [r|x]; simpl in H;
        [|discriminate H] end.
    destruct (_updatePlasmaPsi psi r) as [[] r'|x r'] eqn:Eu;
      [|discriminate H].
    inversion H. exact (proj1 (update_spline_current _ _ Eu)).
  - unfold coarsen, regrid in H.
    destruct (restrict (plasma_psi eq0)) as [psi|e]; simpl in H;
      [|discriminate H].
    match type of H with context [Equilibrium_init ?a ?b ?c ?d ?e ?f ?g ?h ?i] =>
      destruct (Equilibrium_init a b c d e f g h i) as [r|x]; simpl in H;
        [|discriminate H] end.
    destruct (_updatePlasmaPsi psi r) as [[] r'|x r'] eqn:Eu;
      [|discriminate H].
    inversion H. exact (proj1 (update_spline_current _ _ Eu)).
  - exact (proj1 (update_spline_current _ _ H)).
Qed.

(** *** The plasma current *)

Lemma setSolverVcycle_state (as_main : bool) (args : list value)
      (kw : env value) (eq : EqT) :
  final_state (setSolverVcycle as_main args kw eq) = eq.
Proof.
  unfold setSolverVcycle, call_method.
  destruct (bind_args setSolverVcycle_params (VEq eq :: args) kw)
    as [locals|e] eqn:E; [|reflexivity].
  destruct (setSolverVcycle_body_raises as_main locals eq) as [x Hx].
  - eapply bind_args_names; [exact E | reflexivity].
  - rewrite Hx. reflexivity.
Qed.

Lemma setSolver_state (as_main : bool) (args : list value)
      (kw : env value) (eq : EqT) :
  final_state (setSolver as_main args kw eq) = eq.
Proof.
  unfold setSolver, call_method.
  destruct (bind_args setSolver_params (VEq eq :: args) kw)
    as [locals|e] eqn:E; [|reflexivity].
  assert (Hself : lookup "self"%string locals = None)
    by (eapply bind_args_names; [exact E | reflexivity]).
  unfold setSolver_body, Py.bind, load_name. rewrite Hself.
  destruct (lookup "solver"%string locals) as [v|].
  - simpl. destruct as_main; reflexivity.
  - destruct (lookup "solver"%string (module_globals as_main)) as [v|];
      simpl; [destruct as_main|]; reflexivity.
Qed.

(** C9. When [solve] returns, the stored plasma current is
    [romb(romb(Jtor))], Romberg integration along the last axis and then
    along the first, times [dR = R[1,0] - R[0,0]] and
    [dZ = Z[0,1] - Z[0,0]], for the current density [Jtor] of this solve;
    [plasmaCurrent] returns the stored value; and the other operations that
    change the object ([_updatePlasmaPsi], the two solver setters) leave it
    as it is. *)
Theorem solve_sets_plasma_current (profiles : P) (eq eq' : EqT) :
  solve_body profiles eq = Done tt eq' ->
  (exists J inner I r10 r00 z01 z00,
      solve_Jtor profiles eq = Ok J /\
      romb2 J = Ok inner /\ romb1 inner = Ok I /\
      at2 (Rgrid eq) 1 0 = Ok r10 /\ at2 (Rgrid eq) 0 0 = Ok r00 /\
      at2 (Zgrid eq) 0 1 = Ok z01 /\ at2 (Zgrid eq) 0 0 = Ok z00 /\
      plasmaCurrent eq' = I * (r10 - r00) * (z01 - z00)) /\
  plasmaCurrent eq' = _current eq' /\
  (forall psi (e e' : EqT), _updatePlasmaPsi psi e = Done tt e' ->
                            plasmaCurrent e' = plasmaCurrent e) /\
  (forall as_main args kw (e : EqT),
      plasmaCurrent (final_state (setSolverVcycle as_main args kw e))
      = plasmaCurrent e) /\
  (forall as_main args kw (e : EqT),
      plasmaCurrent (final_state (setSolver as_main args kw e))
      = plasmaCurrent e).
Proof.
  intros H. split; [|split; [reflexivity|split; [|split]]].
  - destruct (solve_body_done _ _ H)
      as (J & eq1 & rhs & psi' & f & r10 & r00 & z01 & z00 & I
          & HJ & _ & _ & _ & _ & E1 & E2 & E3 & E4 & HI & ->).
    unfold romb_romb in HI.
    destruct (romb2 J) as [inner|e] eqn:Ei; simpl in HI; [|discriminate HI].
    exists J, inner, I, r10, r00, z01, z00. repeat split; auto.
  - intros psi e e' Hu. destruct (update_done _ _ Hu) as (f & _ & ->).
    reflexivity.
  - intros. rewrite setSolverVcycle_state. reflexivity.
  - intros. rewrite setSolver_state. reflexivity.
Qed.

End EquilibriumFacts.

(** ** The driver on an Equilibrium *)

Section DriverOnEquilibrium.

Context {T G P Sp Gen Sv B : Type}.
Context {machine : Machine T G} {profile : Profile P}
        {interp : Interpolate Sp} {mg : Multigrid Gen Sv}
        {bnd : equilibrium.Boundary T G P Sp Sv B}.

Import equilibrium picard.

#[local] Abbreviation EqT := (Equilibrium T G P Sp Sv B).

Variable profiles : P.
Variable constrain : option (M EqT unit).
Variables rtol blend : Q.
Variables niter sublevels ncycle : Z.

#[local] Abbreviation the_object :=
  (EquilibriumObject (Gen:=Gen) (bnd:=bnd)).

Lemma driver_solve_call (eq : EqT) :
  eq_solve the_object profiles niter sublevels ncycle eq = Failed TypeError eq.
Proof. reflexivity. Qed.

Lemma driver_compare_raises (psi : field) (s : frame EqT) :
  compare the_object profiles niter sublevels ncycle psi s
  = Failed TypeError {| obj := obj s; log := log s ++ [CallSolve] |}.
Proof. reflexivity. Qed.

(** C2. On an [Equilibrium], the call
    [eq.solve(profiles, niter=.., sublevels=.., ncycle=..)] that the driver
    makes raises [TypeError] and leaves the object, its flux included, as
    it was, whatever the object and the profiles: [Equilibrium.solve] has
    the parameters [self] and [profiles] only, so the keywords cannot be
    bound, while the same call without them binds. Hence every turn of the
    loop, the first one included, stops at that call, and a run of the
    driver ends in an exception. *)
Theorem driver_on_Equilibrium_type_error (eq : EqT) :
  eq_solve the_object profiles niter sublevels ncycle eq = Failed TypeError eq
  /\ bind_args solve_params [VEq eq; VProfiles profiles]
       [("niter"%string, VInt niter); ("sublevels"%string, VInt sublevels);
        ("ncycle"%string, VInt ncycle)] = Raise TypeError
  /\ bind_args solve_params [VEq eq; VProfiles profiles] []
     = Ok [("self"%string, VEq eq); ("profiles"%string, VProfiles profiles)]
  /\ (forall psi s,
         iteration the_object profiles constrain rtol blend niter sublevels
                   ncycle psi s
         = Failed TypeError {| obj := obj s; log := log s ++ [CallSolve] |})
  /\ (forall fuel, exists e s,
         picard.solve the_object profiles constrain rtol blend niter
                      sublevels ncycle (S fuel) eq = Raised e s).
Proof.
  repeat split; try reflexivity.
  intros fuel. unfold picard.solve.
  destruct ((call_constrain constrain ;;; total_psi the_object)%py
              {| obj := eq; log := [] |}) as [psi s|e s].
  - exists TypeError. eexists. reflexivity.
  - exists e, s. reflexivity.
Qed.

(** Without a constraint the exception is the [TypeError], and the object is
    untouched. *)
Lemma driver_on_Equilibrium_unconstrained (eq : EqT) (psi0 : field)
      (fuel : nat) :
  equilibrium.psi eq = Ok psi0 ->
  picard.solve the_object profiles None rtol blend niter sublevels ncycle
               (S fuel) eq
  = Raised TypeError {| obj := eq; log := [CallSolve] |}.
Proof.
  intros H. unfold picard.solve, Py.bind, call_constrain, total_psi; simpl.
  rewrite H. reflexivity.
Qed.

End DriverOnEquilibrium.

(** ** The Picard loop *)

Section PicardFacts.

Import picard.

Variables E P : Type.
Variable iface : EqObject E P.
Variable profiles : P.
Variable constrain : option (M E unit).
Variables rtol blend : Q.
Variables niter sublevels ncycle : Z.

#[local] Abbreviation compare_ :=
  (compare iface profiles niter sublevels ncycle).
#[local] Abbreviation prepare_ := (prepare iface constrain blend).
#[local] Abbreviation iteration_ :=
  (iteration iface profiles constrain rtol blend niter sublevels ncycle).
#[local] Abbreviation main_loop_ :=
  (main_loop iface profiles constrain rtol blend niter sublevels ncycle).
#[local] Abbreviation turns_ :=
  (turns iface profiles constrain rtol blend niter sublevels ncycle).

(** [x < rtol] holds for a finite [x] below [rtol] only. *)
Lemma xlt_spec (x : xfloat) (y : Q) :
  xlt x y = true <-> exists q, x = Finite q /\ q < y.
Proof.
  destruct x as [q|]; simpl.
  - rewrite negb_true_iff. split.
    + intros H. exists q. split; [reflexivity|].
      apply Qnot_le_lt. intros Hle. apply Qle_bool_iff in Hle. congruence.
    + intros (q' & E' & Hlt). inversion E'; subst.
      destruct (Qle_bool y q') eqn:Hb; [|reflexivity].
      apply Qle_bool_iff in Hb. exfalso. apply (Qlt_not_le _ _ Hlt Hb).
  - split; [discriminate | intros (q & E' & _); discriminate].
Qed.

(** What the first half of a turn has computed when it returns. *)
Lemma compare_done (psi d : field) (r : xfloat) (s s' : frame E) :
  compare_ psi s = Done (d, r) s' ->
  exists e1 psi1,
    eq_solve iface profiles niter sublevels ncycle (obj s) = Done tt e1 /\
    s' = {| obj := e1; log := log s ++ [CallSolve] |} /\
    eq_psi iface e1 = Ok psi1 /\
    sub psi psi1 = Ok d /\
    relchange d psi1 = Ok r.
Proof.
  unfold compare, Py.bind, emit, modify, on_eq, total_psi, lift. simpl.
  destruct (eq_solve iface profiles niter sublevels ncycle (obj s))
    as [[] e1|x e1] eqn:E1; [|discriminate].
  simpl. destruct (eq_psi iface e1) as [psi1|x] eqn:E2; [|discriminate].
  destruct (sub psi psi1) as [d'|x] eqn:E3; [|discriminate].
  destruct (relchange d' psi1) as [r'|x] eqn:E4; [|discriminate].
  intros H. inversion H; subst. exists e1, psi1. repeat split; assumption.
Qed.

(** What the second half has done when it returns: [psi] for the next
    turn blends the flux read after the constraint with the array it is
    given. *)
Lemma prepare_done (d psi' : field) (s s' : frame E) :
  prepare_ d s = Done psi' s' ->
  exists psi_new,
    eq_psi iface (obj s') = Ok psi_new /\
    blended blend psi_new d = Ok psi' /\
    match constrain with
    | Some c => c (obj s) = Done tt (obj s') /\
                log s' = log s ++ [CallConstrain]
    | None => s' = s
    end.
Proof.
  unfold prepare, call_constrain, Py.bind, total_psi, lift.
  destruct constrain as [c|].
  - unfold emit, modify, on_eq. simpl.
    destruct (c (obj s)) as [[] e1|x e1]; [|discriminate]. simpl.
    destruct (eq_psi iface e1) as [psi_new|x] eqn:Ep; [|discriminate].
    destruct (blended blend psi_new d) as [p|x] eqn:Eb; [|discriminate].
    intros H. inversion H; subst. exists psi_new. simpl. auto.
  - simpl.
    destruct (eq_psi iface (obj s)) as [psi_new|x] eqn:Ep; [|discriminate].
    destruct (blended blend psi_new d) as [p|x] eqn:Eb; [|discriminate].
    intros H. inversion H; subst. exists psi_new. auto.
Qed.

(** A turn leaves the loop exactly when its first half returns a relative
    change below the tolerance. *)
Lemma iteration_break (psi : field) (s s' : frame E) :
  iteration_ psi s = Done None s' <->
  exists d r, compare_ psi s = Done (d, r) s' /\ xlt r rtol = true.
Proof.
  unfold iteration, Py.bind at 1.
  destruct (compare_ psi s) as [[d r] s1|x s1]; simpl.
  - destruct (xlt r rtol) eqn:Hx.
    + unfold ret. split.
      * intros H. inversion H; subst. exists d, r. auto.
      * intros (d' & r' & H & _). inversion H; subst. reflexivity.
    + unfold Py.bind, ret. split.
      * destruct (prepare_ d s1); discriminate.
      * intros (d' & r' & H & Hx'). inversion H; subst. congruence.
  - split; [discriminate | intros (d & r & H & _); discriminate].
Qed.

(** A turn goes on to the next exactly when the relative change is not
    below the tolerance and its second half returns. *)
Lemma iteration_continue (psi psi1 : field) (s s1 : frame E) :
  iteration_ psi s = Done (Some psi1) s1 <->
  exists d r s0, compare_ psi s = Done (d, r) s0 /\ xlt r rtol = false /\
                 prepare_ d s0 = Done psi1 s1.
Proof.
  unfold iteration, Py.bind at 1.
  destruct (compare_ psi s) as [[d r] s0|x s0]; simpl.
  - destruct (xlt r rtol) eqn:Hx.
    + unfold ret. split; [discriminate|].
      intros (d' & r' & s0' & H & Hx' & _). inversion H; subst. congruence.
    + unfold Py.bind, ret. split.
      * destruct (prepare_ d s0) as [p s2|x s2] eqn:Ep; [|discriminate].
        intros H. inversion H; subst. exists d, r, s0. auto.
      * intros (d' & r' & s0' & H & _ & Hp). inversion H; subst.
        rewrite Hp. reflexivity.
  - split; [discriminate | intros (d & r & s2 & H & _); discriminate].
Qed.

Lemma main_loop_converged (fuel : nat) :
  forall psi s s',
    main_loop_ fuel psi s = Converged s' <->
    exists n psi_n s_n,
      (n < fuel)%nat /\ turns_ n psi s psi_n s_n /\
      iteration_ psi_n s_n = Done None s'.
Proof.
  induction fuel as [|fuel IH]; intros psi s s'; simpl.
  - split; [discriminate | intros (n & _ & _ & H & _); lia].
  - destruct (iteration_ psi s) as [[psi1|] s1|x s1] eqn:Ei.
    + rewrite IH. split.
      * intros (n & psi_n & s_n & Hn & Ht & Hb).
        exists (S n), psi_n, s_n. repeat split; [lia| |exact Hb].
        econstructor; eauto.
      * intros (n & psi_n & s_n & Hn & Ht & Hb).
        inversion Ht; subst; [congruence|].
        assert (psi2 = psi1 /\ s2 = s1) as [-> ->]
          by (split; congruence).
        exists n0, psi_n, s_n. repeat split; [lia|assumption|assumption].
    + split.
      * intros H. inversion H; subst.
        exists 0%nat, psi, s. repeat split; [lia|constructor|exact Ei].
      * intros (n & psi_n & s_n & Hn & Ht & Hb).
        inversion Ht; subst; congruence.
    + split; [discriminate|].
      intros (n & psi_n & s_n & Hn & Ht & Hb).
      inversion Ht; subst; congruence.
Qed.

Lemma main_loop_raised (fuel : nat) :
  forall psi s s' e,
    main_loop_ fuel psi s = Raised e s' <->
    exists n psi_n s_n,
      (n < fuel)%nat /\ turns_ n psi s psi_n s_n /\
      iteration_ psi_n s_n = Failed e s'.
Proof.
  induction fuel as [|fuel IH]; intros psi s s' e; simpl.
  - split; [discriminate | intros (n & _ & _ & H & _); lia].
  - destruct (iteration_ psi s) as [[psi1|] s1|x s1] eqn:Ei.
    + rewrite IH. split.
      * intros (n & psi_n & s_n & Hn & Ht & Hb).
        exists (S n), psi_n, s_n. repeat split; [lia| |exact Hb].
        econstructor; eauto.
      * intros (n & psi_n & s_n & Hn & Ht & Hb).
        inversion Ht; subst; [congruence|].
        assert (psi2 = psi1 /\ s2 = s1) as [-> ->]
          by (split; congruence).
        exists n0, psi_n, s_n. repeat split; [lia|assumption|assumption].
    + split; [discriminate|].
      intros (n & psi_n & s_n & Hn & Ht & Hb).
      inversion Ht; subst; congruence.
    + split.
      * intros H. inversion H; subst.
        exists 0%nat, psi, s. repeat split; [lia|constructor|exact Ei].
      * intros (n & psi_n & s_n & Hn & Ht & Hb).
        inversion Ht; subst; congruence.
Qed.

Lemma main_loop_running (fuel : nat) :
  forall psi s s',
    main_loop_ fuel psi s = Running s' <->
    exists psi', turns_ fuel psi s psi' s'.
Proof.
  induction fuel as [|fuel IH]; intros psi s s'; simpl.
  - split.
    + intros H. inversion H; subst. exists psi. constructor.
    + intros (psi' & Ht). inversion Ht; subst. reflexivity.
  - destruct (iteration_ psi s) as [[psi1|] s1|x s1] eqn:Ei.
    + rewrite IH. split.
      * intros (psi' & Ht). exists psi'. econstructor; eauto.
      * intros (psi' & Ht). inversion Ht; subst.
        assert (psi2 = psi1 /\ s2 = s1) as [-> ->]
          by (split; congruence).
        exists psi'. assumption.
    + split; [discriminate|].
      intros (psi' & Ht). inversion Ht; subst; congruence.
    + split; [discriminate|].
      intros (psi' & Ht). inversion Ht; subst; congruence.
Qed.

(** C4 (as the code has it). The loop is left by [break] in a turn exactly
    when that turn's relative change, [amax(abs(psi_n - psi_n1))] over
    [amax(psi_n1) - amin(psi_n1)], is finite and strictly below [rtol],
    every earlier turn having run through; a turn runs through exactly
    when its relative change is not below [rtol] and its calls return;
    after any number of turns that ran through the loop is still running
    (there is no cap); and the one other way out is an exception raised by
    a call of some turn. *)
Theorem loop_exits (fuel : nat) (psi : field) (s s' : frame E) :
  (main_loop_ fuel psi s = Converged s' <->
   exists n psi_n s_n d r,
     (n < fuel)%nat /\ turns_ n psi s psi_n s_n /\
     compare_ psi_n s_n = Done (d, r) s' /\
     exists q, r = Finite q /\ q < rtol) /\
  (forall psi_n s_n d r s_n',
     compare_ psi_n s_n = Done (d, r) s_n' ->
     exists psi_n1 m hi lo,
       eq_psi iface (obj s_n') = Ok psi_n1 /\ sub psi_n psi_n1 = Ok d /\
       amax (abs d) = Ok m /\ amax psi_n1 = Ok hi /\ amin psi_n1 = Ok lo /\
       r = np_div m (hi - lo)) /\
  (forall psi_n s_n psi_n' s_n',
     iteration_ psi_n s_n = Done (Some psi_n') s_n' <->
     exists d r s0, compare_ psi_n s_n = Done (d, r) s0 /\
                    xlt r rtol = false /\ prepare_ d s0 = Done psi_n' s_n') /\
  (main_loop_ fuel psi s = Running s' <->
   exists psi', turns_ fuel psi s psi' s') /\
  (forall e, main_loop_ fuel psi s = Raised e s' <->
             exists n psi_n s_n,
               (n < fuel)%nat /\ turns_ n psi s psi_n s_n /\
               iteration_ psi_n s_n = Failed e s').
Proof.
  split; [|split; [|split; [|split]]].
  - rewrite main_loop_converged. split.
    + intros (n & psi_n & s_n & Hn & Ht & Hb).
      apply iteration_break in Hb as (d & r & Hc & Hx).
      exists n, psi_n, s_n, d, r. repeat split; try assumption.
      apply xlt_spec. exact Hx.
    + intros (n & psi_n & s_n & d & r & Hn & Ht & Hc & Hx).
      exists n, psi_n, s_n. repeat split; try assumption.
      apply iteration_break. exists d, r. split; [exact Hc|].
      apply xlt_spec. exact Hx.
  - intros psi_n s_n d r s_n' Hc.
    destruct (compare_done _ _ Hc) as (e1 & psi1 & _ & -> & Hp & Hd & Hr).
    unfold relchange in Hr.
    destruct (amax (abs d)) as [m|x] eqn:Em; simpl in Hr; [|discriminate Hr].
    destruct (amax psi1) as [hi|x] eqn:Eh; simpl in Hr; [|discriminate Hr].
    destruct (amin psi1) as [lo|x] eqn:El; simpl in Hr; [|discriminate Hr].
    inversion Hr. exists psi1, m, hi, lo. simpl. repeat split; assumption.
  - intros. apply iteration_continue.
  - apply main_loop_running.
  - intros e. apply main_loop_raised.
Qed.

(** When a turn goes on to the next, the flux it carries there is
    [(1 - blend)] times the total flux read after the constraint, plus
    [blend] times the change [psi_n - psi_n1] of this turn:
    [psi_last -= psi] has replaced the previous flux by the change before
    the blend reads it. *)
Lemma carried_flux_blends_the_change (psi_n psi_c : field) (s s' : frame E) :
  iteration_ psi_n s = Done (Some psi_c) s' ->
  exists e1 psi_n1 d psi_new,
    eq_solve iface profiles niter sublevels ncycle (obj s) = Done tt e1 /\
    eq_psi iface e1 = Ok psi_n1 /\
    sub psi_n psi_n1 = Ok d /\
    eq_psi iface (obj s') = Ok psi_new /\
    add (scale (1 - blend) psi_new) (scale blend d) = Ok psi_c.
Proof.
  intros H. apply iteration_continue in H as (d & r & s0 & Hc & _ & Hp).
  destruct (compare_done _ _ Hc) as (e1 & psi1 & Hs & _ & Hpsi & Hd & _).
  destruct (prepare_done _ _ Hp) as (psi_new & Hn & Hb & _).
  exists e1, psi1, d, psi_new. repeat split; assumption.
Qed.

End PicardFacts.

(** ** Calls of the constraint *)

Section ConstrainCalls.

Import picard.

Variables E P : Type.
Variable iface : EqObject E P.
Variable profiles : P.
Variable c : M E unit.
Variables rtol blend : Q.
Variables niter sublevels ncycle : Z.

Lemma concat_repeat_shift {A} (a b : A) (n : nat) :
  [a] ++ concat (repeat [b; a] n) = concat (repeat [a; b] n) ++ [a].
Proof.
  induction n as [|n IH]; [reflexivity|].
  simpl. simpl in IH. rewrite IH. reflexivity.
Qed.

Lemma concat_repeat_snoc {A} (l : list A) (n : nat) :
  concat (repeat l n) ++ l = concat (repeat l (S n)).
Proof.
  induction n as [|n IH]; simpl.
  - rewrite app_nil_r. reflexivity.
  - rewrite <- app_assoc. simpl in IH. rewrite IH. reflexivity.
Qed.

(** Each turn that runs through calls [eq.solve], then the constraint. *)
Lemma turns_log (n : nat) (psi psi' : field) (s s' : frame E) :
  turns iface profiles (Some c) rtol blend niter sublevels ncycle
        n psi s psi' s' ->
  log s' = log s ++ concat (repeat [CallSolve; CallConstrain] n).
Proof.
  induction 1 as [psi s|n psi s psi1 s1 psi' s' Hi Ht IH].
  - simpl. rewrite app_nil_r. reflexivity.
  - apply iteration_continue in Hi as (d & r & s0 & Hc & _ & Hp).
    destruct (compare_done _ _ _ _ _ _ _ Hc) as (e1 & psi2 & _ & -> & _).
    destruct (prepare_done _ _ _ _ _ Hp) as (psi_new & _ & _ & _ & Hl).
    rewrite IH, Hl. simpl. rewrite <- !app_assoc. reflexivity.
Qed.

Lemma before_loop_log (eq : E) (psi : field) (s : frame E) :
  (call_constrain (Some c) ;;; total_psi iface)%py {| obj := eq; log := [] |}
  = Done psi s ->
  log s = [CallConstrain].
Proof.
  unfold call_constrain, Py.bind, emit, modify, on_eq, total_psi, lift.
  simpl. destruct (c eq) as [[] e1|x e1]; [|discriminate]. simpl.
  destruct (eq_psi iface e1); [|discriminate].
  intros H. inversion H. reflexivity.
Qed.

(** C6 (as the code has it). With a constraint supplied, a run that
    converges in its [n]-th turn has made its calls in the order
    constraint, solve, ..., constraint, solve ([n] pairs): one call of the
    constraint before each linear solve (the first before the loop, the
    others at the end of the turn before), and none after the solve of the
    converging turn. *)
Theorem constrain_once_before_each_solve (fuel : nat) (eq : E)
        (s' : frame E) :
  picard.solve iface profiles (Some c) rtol blend niter sublevels ncycle
               fuel eq = Converged s' ->
  exists n, (1 <= n <= fuel)%nat /\
            log s' = concat (repeat [CallConstrain; CallSolve] n).
Proof.
  unfold picard.solve.
  destruct ((call_constrain (Some c) ;;; total_psi iface)%py
              {| obj := eq; log := [] |}) as [psi s|x s] eqn:E0;
    [|discriminate].
  pose proof (before_loop_log _ E0) as Hl0.
  intros H. apply main_loop_converged in H
    as (n & psi_n & s_n & Hn & Ht & Hb).
  apply iteration_break in Hb as (d & r & Hc & _).
  destruct (compare_done _ _ _ _ _ _ _ Hc) as (e1 & psi1 & _ & -> & _).
  exists (S n). split; [lia|]. simpl log.
  rewrite (turns_log Ht), Hl0, concat_repeat_shift.
  rewrite <- app_assoc. apply (concat_repeat_snoc [CallConstrain; CallSolve]).
Qed.

(** While it runs, the driver has called the constraint once more than
    [eq.solve]. *)
Lemma constrain_calls_while_running (fuel : nat) (eq : E) (s' : frame E) :
  picard.solve iface profiles (Some c) rtol blend niter sublevels ncycle
               fuel eq = Running s' ->
  log s' = concat (repeat [CallConstrain; CallSolve] fuel) ++ [CallConstrain].
Proof.
  unfold picard.solve.
  destruct ((call_constrain (Some c) ;;; total_psi iface)%py
              {| obj := eq; log := [] |}) as [psi s|x s] eqn:E0;
    [|discriminate].
  pose proof (before_loop_log _ E0) as Hl0.
  intros H. apply main_loop_running in H as (psi' & Ht).
  rewrite (turns_log Ht), Hl0. apply concat_repeat_shift.
Qed.

End ConstrainCalls.

(** ** The model at work *)

Section Runs.

Import Demo equilibrium picard.

(** C1, at [blend = 1/2] without a constraint: the previous total flux is
    [[0, 1]], the solve gives [[0, 3]]; the turn carries [[0, 1/2]] to the
    next, that is [(1 - 1/2) * 3 + 1/2 * (1 - 3)], where the blend of the
    new with the previous flux, [(1 - 1/2) * 3 + 1/2 * 1], is [[0, 2]]. *)
Theorem blend_reads_change_for_previous_flux :
  exists psi_c s' psi_doc,
    iteration scripted tt None (1 # 1000) (1 # 2) 2 4 2 [[0; 1]]
              {| obj := [Some [[0; 1]]; Some [[0; 3]]]; log := [] |}
    = Done (Some psi_c) s' /\
    feq psi_c [[0; 1 # 2]] /\
    blended (1 # 2) [[0; 3]] [[0; 1]] = Ok psi_doc /\
    feq psi_doc [[0; 2]] /\
    ~ feq psi_c psi_doc.
Proof.
  eexists. eexists. eexists. split; [vm_compute; reflexivity|].
  split; [repeat constructor|].
  split; [vm_compute; reflexivity|].
  split; [repeat constructor|].
  intros H. inversion H as [|? ? ? ? Hrow _]; subst.
  inversion Hrow as [|? ? ? ? _ Hrest]; subst.
  inversion Hrest as [|? ? ? ? Hq _]; subst.
  vm_compute in Hq. discriminate Hq.
Qed.

(** With that blend the driver runs on although the flux of the object has
    stopped changing after the first solve; with no blend it converges in
    the second turn. *)
Lemma blend_half_keeps_running :
  (exists s,
      picard.solve scripted tt None (1 # 1000) (1 # 2) 2 4 2 6
        [Some [[0; 1]]; Some [[0; 3]]; Some [[0; 3]]; Some [[0; 3]];
         Some [[0; 3]]; Some [[0; 3]]; Some [[0; 3]]; Some [[0; 3]]]
      = Running s) /\
  (exists s,
      picard.solve scripted tt None (1 # 1000) 0 2 4 2 6
        [Some [[0; 1]]; Some [[0; 3]]; Some [[0; 3]]; Some [[0; 3]];
         Some [[0; 3]]; Some [[0; 3]]; Some [[0; 3]]; Some [[0; 3]]]
      = Converged s /\ log s = [CallSolve; CallSolve]).
Proof.
  split.
  - eexists. vm_compute. reflexivity.
  - eexists. split; vm_compute; reflexivity.
Qed.

Lemma seven_is_no_grid_size : ~ grid_size 7.
Proof.
  intros [k Hk].
  destruct k as [|[|[|k]]]; try (vm_compute in Hk; discriminate Hk).
  assert (2 ^ 3 <= 2 ^ Z.of_nat (S (S (S k))))%Z
    by (apply Z.pow_le_mono_r; lia).
  change (2 ^ 3)%Z with 8%Z in H. lia.
Qed.

(** C3, on a 7 by 7 grid: 7 is not of the form [2^k + 1], and the
    constructor returns an object. *)
Lemma constructor_accepts_7_by_7 :
  ~ grid_size 7 /\ exists eq, make 7 7 1 = Ok eq.
Proof.
  split; [exact seven_is_no_grid_size|].
  eexists. vm_compute. reflexivity.
Qed.

Lemma init_makes_no_size_check_witness :
  (2 <= 7)%Z /\ (2 <= 7)%Z /\ ~ 1 == -1 /\
  exists psi0,
    has_shape (Z.to_nat 7) (Z.to_nat 7) psi0 /\
    make 7 7 1
    = (let R := grid_R (1 # 10) ((2 - (1 # 10)) / inject_Z (7 - 1)) 7 7 in
       let Z := grid_Z (-1) ((1 - -1) / inject_Z (7 - 1)) 7 7 in
       let? f := spline_over R Z psi0 in
       let? pgreen := createPsiGreens tt R Z in
       let? solver := createVcycle 7 7 (GSsparse (1 # 10) 2 (-1) 1)
                                   1 1 2 true in
       Ok (mkEquilibrium tt 1 (1 # 10) 2 (-1) 1 R Z psi0 f pgreen
                         0 solver None)).
Proof.
  assert (H1 : (2 <= 7)%Z) by lia.
  assert (H2 : ~ 1 == -1) by (intros E; vm_compute in E; discriminate E).
  split; [exact H1|]. split; [exact H1|]. split; [exact H2|].
  exact (init_makes_no_size_check (P:=field) tt (1 # 10) 2 1 H1 H1 H2).
Defined.

(** On that grid it is the first [solve] that raises, in the Romberg
    integration, after the flux has been replaced. *)
Lemma first_solve_rejects_7_by_7 :
  exists eq J eq',
    make 7 7 1 = Ok eq /\ J = fmap (fun _ => 2) (Rgrid eq) /\
    solve_body J eq = Failed ValueError eq' /\
    plasma_psi eq' <> plasma_psi eq.
Proof.
  eexists. eexists. eexists.
  split; [vm_compute; reflexivity|].
  split; [vm_compute; reflexivity|].
  split; [vm_compute; reflexivity|].
  vm_compute. discriminate.
Qed.

(** C4, on a scripted object whose second [solve] raises: the run ends in
    its second turn without a relative change below the tolerance. *)
Lemma loop_left_by_exception :
  exists s,
    picard.solve scripted tt None (1 # 1000) 0 2 4 2 3
                 [Some [[0; 1]]; Some [[0; 3]]; None]
    = Raised RuntimeError s /\
    (forall s', Raised RuntimeError s <> Converged s') /\
    (forall s', Raised RuntimeError s <> Running s').
Proof.
  eexists. split; [vm_compute; reflexivity|].
  split; intros s'; discriminate.
Qed.

Lemma solve_right_hand_side_witness :
  solve_Jtor J5 eq5 = Ok J5 /\
  solve_boundary J5 (with_profiles (Some J5) eq5) = Done tt eq5_edges /\
  exists rhs,
    has_shape 5 5 rhs /\
    (forall i j, (i < 5)%nat -> (j < 5)%nat ->
       entry rhs i j = if on_edge 5 5 i j then entry (plasma_psi eq5_edges) i j
                       else - mu0 * entry (Rgrid eq5) i j * entry J5 i j) /\
    solve_body J5 eq5
    = match call_solver (_solver eq5) (plasma_psi eq5_edges) rhs with
      | Ok psi' => (_updatePlasmaPsi psi' ;;; solve_current J5)%py eq5_edges
      | Raise e => Failed e eq5_edges
      end.
Proof.
  assert (H1 : solve_Jtor J5 eq5 = Ok J5) by reflexivity.
  assert (H2 : solve_boundary J5 (with_profiles (Some J5) eq5)
               = Done tt eq5_edges) by reflexivity.
  split; [exact H1|]. split; [exact H2|].
  apply (solve_right_hand_side (Gen:=(Q * Q * Q * Q)%type) J5 eq5 H1 H2).
  - split; [reflexivity | repeat constructor].
  - split; [reflexivity | repeat constructor].
  - split; [reflexivity | repeat constructor].
  - lia.
  - lia.
Defined.

(** C6, on a run that converges in its first turn: the log is constraint,
    solve; no call of the constraint follows the solve. *)
Lemma no_constraint_after_last_solve :
  exists s,
    picard.solve scripted tt (Some no_adjust) (1 # 1000) 0 2 4 2 3
                 [Some [[0; 3]]; Some [[0; 3]]]
    = Converged s /\
    log s = [CallConstrain; CallSolve] /\
    ~ constrained_around (log s).
Proof.
  eexists. split; [vm_compute; reflexivity|]. simpl.
  split; [reflexivity|].
  intros H. destruct (H [CallConstrain] [] eq_refl) as [_ [l2 Hl2]].
  discriminate Hl2.
Qed.

Lemma constrain_once_before_each_solve_witness :
  picard.solve scripted tt (Some no_adjust) (1 # 1000) 0 2 4 2 3
               [Some [[0; 1]]; Some [[0; 3]]; Some [[0; 3]]]
  = Converged {| obj := [Some [[0; 3]]];
                 log := [CallConstrain; CallSolve; CallConstrain; CallSolve] |}
  /\ exists n, (1 <= n <= 3)%nat /\
       [CallConstrain; CallSolve; CallConstrain; CallSolve]
       = concat (repeat [CallConstrain; CallSolve] n).
Proof.
  assert (H : picard.solve scripted tt (Some no_adjust) (1 # 1000) 0 2 4 2 3
                [Some [[0; 1]]; Some [[0; 3]]; Some [[0; 3]]]
              = Converged {| obj := [Some [[0; 3]]];
                   log := [CallConstrain; CallSolve; CallConstrain; CallSolve] |})
    by (vm_compute; reflexivity).
  split; [exact H|].
  exact (constrain_once_before_each_solve _ _ _ _ _ _ _ _ _ _ H).
Defined.

(** [setSolverVcycle] on the 5 by 5 object: with keywords the call is a
    [TypeError], with positional arguments a [NameError]; the solver
    stays. *)
Lemma setSolverVcycle_on_eq5 :
  setSolverVcycle (Gen:=(Q * Q * Q * Q)%type) false []
    [("nlevels"%string, VInt 2); ("ncycle"%string, VInt 1);
     ("niter"%string, VInt 1)] eq5 = Failed TypeError eq5 /\
  setSolverVcycle (Gen:=(Q * Q * Q * Q)%type) false
    [VInt 2; VInt 1; VInt 1] [] eq5 = Failed NameError eq5.
Proof. split; reflexivity. Qed.

(** C8, inside a solve of the 5 by 5 object: the boundary strategy has
    written the edges of the flux, and the spline is still the one of the
    flux before; a solve that then raises (here at the right hand side,
    on a current density of 2 by 3 points) leaves the object so. *)
Lemma boundary_write_leaves_spline_stale :
  spline_current eq5 /\
  solve_boundary J5 (with_profiles (Some J5) eq5) = Done tt eq5_edges /\
  plasma_psi eq5_edges <> plasma_psi eq5 /\
  psi_func eq5_edges = psi_func eq5 /\
  ~ spline_current eq5_edges /\
  equilibrium.solve (Gen:=(Q * Q * Q * Q)%type) [VProfiles J23] [] eq5
  = Failed ValueError eq5_failed /\
  ~ spline_current eq5_failed.
Proof.
  split; [reflexivity|]. split; [reflexivity|].
  split; [vm_compute; discriminate|]. split; [reflexivity|].
  split; [vm_compute; discriminate|]. split; [reflexivity|].
  vm_compute; discriminate.
Qed.

Lemma returned_objects_carry_current_spline_witness :
  returned_by (Gen:=(Q * Q * Q * Q)%type) eq5_solved /\
  spline_current eq5_solved.
Proof.
  assert (H : returned_by (Gen:=(Q * Q * Q * Q)%type) eq5_solved).
  { apply (by_solve (Gen:=(Q * Q * Q * Q)%type) [VProfiles J5] [] eq5).
    reflexivity. }
  split; [exact H|].
  exact (returned_objects_carry_current_spline H).
Defined.

Lemma solve_sets_plasma_current_witness :
  solve_body (Gen:=(Q * Q * Q * Q)%type) J5 eq5 = Done tt eq5_solved /\
  plasmaCurrent eq5_solved = _current eq5_solved.
Proof.
  assert (H : solve_body (Gen:=(Q * Q * Q * Q)%type) J5 eq5
              = Done tt eq5_solved) by reflexivity.
  split; [exact H|].
  exact (proj1 (proj2 (solve_sets_plasma_current (Gen:=(Q * Q * Q * Q)%type)
                         J5 eq5 H))).
Defined.

Lemma plasma_field_from_spline_witness :
  0 < 1 /\
  exists br bz,
    plasmaBr eq5 1 0 = Ok (Finite br) /\ br == - (1 / 1) * 2 /\
    plasmaBz eq5 1 0 = Ok (Finite bz) /\ bz == (1 / 1) * 1 /\
    Br eq5 1 0 = Ok (Finite (br + machine_Br (tokamak eq5) 1 0)) /\
    Bz eq5 1 0 = Ok (Finite (bz + machine_Bz (tokamak eq5) 1 0)) /\
    forall s, plasmaBr (with_solver s eq5) 1 0 = plasmaBr eq5 1 0 /\
              plasmaBz (with_solver s eq5) 1 0 = plasmaBz eq5 1 0.
Proof.
  assert (H : 0 < 1) by reflexivity.
  split; [exact H|].
  apply (plasma_field_from_spline eq5 0 H); reflexivity.
Defined.

End Runs.

(** * More of the Equilibrium object *)

Section MoreEquilibrium.

Context {T G P Sp Gen Sv B : Type}.
Context {machine : Machine T G} {profile : Profile P}
        {interp : Interpolate Sp} {mg : Multigrid Gen Sv}
        {bnd : equilibrium.Boundary T G P Sp Sv B} {floats : Floats}
        {pfun : ProfileFunctions P}.

Import equilibrium.

#[local] Abbreviation EqT := (Equilibrium T G P Sp Sv B).
#[local] Abbreviation value := (pyval T G P Sp Sv B).

(** ** The solver setters *)

(** A call [eq.setSolver(...)], whatever its arguments, raises and leaves
    the object as it was: the function has the one parameter [solver],
    which takes the object, and its body reads [self], which is bound
    nowhere. *)
Theorem setSolver_always_raises (as_main : bool) (args : list value)
        (kw : env value) (eq : EqT) :
  exists e, setSolver as_main args kw eq = Failed e eq.
Proof.
  unfold setSolver, call_method.
  destruct (bind_args setSolver_params (VEq eq :: args) kw)
    as [locals|e] eqn:E; [|exists e; reflexivity].
  assert (Hself : lookup "self"%string locals = None)
    by (eapply bind_args_names; [exact E | reflexivity]).
  unfold setSolver_body, Py.bind, load_name. rewrite Hself.
  destruct (lookup "solver"%string locals) as [v|].
  - simpl. destruct as_main; eexists; reflexivity.
  - destruct (lookup "solver"%string (module_globals as_main)) as [v|];
      simpl; [destruct as_main|]; eexists; reflexivity.
Qed.

(** ** The constructor *)

Lemma init_div_size (a : Q) (n : Z) :
  n <> 1%Z -> py_div a (inject_Z (n - 1)) = Ok (a / inject_Z (n - 1)).
Proof. intros Hn. apply py_div_ok. apply inject_Z_nonzero. lia. Qed.

Lemma init_div_height (a Zmin Zmax : Q) :
  ~ Zmax == Zmin -> py_div a (Zmax - Zmin) = Ok (a / (Zmax - Zmin)).
Proof. intros H. apply py_div_ok. intros E. apply H. lra. Qed.

(** The three divisions of the constructor. *)
Lemma init_zero_division (tok : T) (Rmin Rmax Zmin Zmax : Q) (nx ny : Z)
      (boundary : B) :
  nx = 1%Z \/ ny = 1%Z \/ Zmax == Zmin ->
  Equilibrium_init P tok Rmin Rmax Zmin Zmax nx ny boundary
  = Raise ZeroDivisionError.
Proof.
  intros H. unfold Equilibrium_init.
  destruct (Z.eq_dec nx 1) as [->|Hx]; [reflexivity|].
  rewrite (init_div_size _ Hx).
  destruct (Z.eq_dec ny 1) as [->|Hy]; [reflexivity|].
  rewrite (init_div_size _ Hy). simpl.
  destruct H as [H|[H|H]]; [contradiction | contradiction |].
  unfold py_div. assert (E : Zmax - Zmin == 0) by lra.
  apply Qeq_eq_bool in E. rewrite E. reflexivity.
Qed.

(** [linspace] on a negative size. *)
Lemma init_negative_size (tok : T) (Rmin Rmax Zmin Zmax : Q) (nx ny : Z)
      (boundary : B) :
  nx <> 1%Z -> ny <> 1%Z -> ~ Zmax == Zmin ->
  (nx < 0)%Z \/ (ny < 0)%Z ->
  Equilibrium_init P tok Rmin Rmax Zmin Zmax nx ny boundary
  = Raise ValueError.
Proof.
  intros Hx Hy HZ H. unfold Equilibrium_init.
  rewrite (init_div_size _ Hx), (init_div_size _ Hy), (init_div_height _ HZ).
  simpl. unfold linspace01.
  destruct (Z.ltb_spec nx 0); [reflexivity|].
  destruct (Z.ltb_spec ny 0); [|lia].
  destruct (nx =? 1)%Z; reflexivity.
Qed.

(** The edges of an array without rows or without columns. *)
Lemma init_empty_size (tok : T) (Rmin Rmax Zmin Zmax : Q) (nx ny : Z)
      (boundary : B) :
  ~ Zmax == Zmin ->
  (nx = 0%Z /\ ny <> 1%Z /\ (0 <= ny)%Z) \/ ((2 <= nx)%Z /\ ny = 0%Z) ->
  Equilibrium_init P tok Rmin Rmax Zmin Zmax nx ny boundary
  = Raise IndexError.
Proof.
  intros HZ [(-> & Hy & Hpos)|(Hx & ->)]; unfold Equilibrium_init.
  - rewrite (init_div_size _ (n:=0) ltac:(lia)), (init_div_size _ Hy),
      (init_div_height _ HZ). simpl.
    unfold linspace01. simpl.
    destruct (Z.ltb_spec ny 0); [lia|].
    destruct (Z.eqb_spec ny 1); [lia|]. reflexivity.
  - rewrite (init_div_size _ (n:=nx) ltac:(lia)),
      (init_div_size _ (n:=0) ltac:(lia)), (init_div_height _ HZ). simpl.
    destruct (linspace01_ok Hx) as (lx & Ex & Lx). rewrite Ex. simpl.
    set (psi := zip_with _ _ _).
    assert (Hs : has_shape (length lx) 0 psi).
    { unfold psi. apply (has_shape_zip _ (ny:=0)); split;
        try (rewrite length_map; reflexivity);
        apply Forall_map; apply Forall_forall; intros; reflexivity. }
    assert (Hl : (0 < length lx)%nat) by lia.
    unfold fill_edges.
    destruct (fill_row_ok 0 0 Hs (norm_index_first Hl)) as (a1 & E1 & H1).
    rewrite E1. simpl. unfold fill_col, set_col.
    rewrite (has_shape_ncols H1 Hl). reflexivity.
Qed.

(** The failures of the constructor's own statements, all of them before a
    collaborator is called: a size of 1 or a zero height divides by zero, a
    negative size is turned down by [linspace], a size of 0 leaves no edge
    to write. *)
Theorem init_own_errors (tok : T) (Rmin Rmax Zmin Zmax : Q) (nx ny : Z)
        (boundary : B) :
  let init := Equilibrium_init P tok Rmin Rmax Zmin Zmax nx ny boundary in
  (nx = 1%Z -> init = Raise ZeroDivisionError) /\
  (nx <> 1%Z -> ny = 1%Z -> init = Raise ZeroDivisionError) /\
  (nx <> 1%Z -> ny <> 1%Z -> Zmax == Zmin ->
   init = Raise ZeroDivisionError) /\
  (nx <> 1%Z -> ny <> 1%Z -> ~ Zmax == Zmin -> (nx < 0)%Z ->
   init = Raise ValueError) /\
  (nx <> 1%Z -> ny <> 1%Z -> ~ Zmax == Zmin -> (0 <= nx)%Z -> (ny < 0)%Z ->
   init = Raise ValueError) /\
  (nx = 0%Z -> ny <> 1%Z -> ~ Zmax == Zmin -> (0 <= ny)%Z ->
   init = Raise IndexError) /\
  ((2 <= nx)%Z -> ny = 0%Z -> ~ Zmax == Zmin -> init = Raise IndexError).
Proof.
  cbv zeta. repeat split.
  - intros Hx. apply init_zero_division. auto.
  - intros _ Hy. apply init_zero_division. auto.
  - intros _ _ HZ. apply init_zero_division. auto.
  - intros Hx Hy HZ Hn. apply init_negative_size; auto.
  - intros Hx Hy HZ _ Hn. apply init_negative_size; auto.
  - intros Hx Hy HZ Hn. apply init_empty_size; auto.
  - intros Hx Hy HZ. apply init_empty_size; auto.
Qed.

(** What an object the constructor returns is made of. *)
Lemma init_inv (tok : T) (Rmin Rmax Zmin Zmax : Q) (nx ny : Z)
      (boundary : B) (eq : EqT) :
  Equilibrium_init P tok Rmin Rmax Zmin Zmax nx ny boundary = Ok eq ->
  let R := grid_R Rmin ((Rmax - Rmin) / inject_Z (nx - 1)) nx ny in
  let Z := grid_Z Zmin ((Zmax - Zmin) / inject_Z (ny - 1)) nx ny in
  exists lx ly psi0 f pgreen solver,
    linspace01 nx = Ok lx /\ linspace01 ny = Ok ly /\
    fill_edges (zip_with (zip_with (bump (1 - Zmax / (Zmax - Zmin))))
                         (fst (meshgrid_ij lx ly)) (snd (meshgrid_ij lx ly)))
               0 = Ok psi0 /\
    spline_over R Z psi0 = Ok f /\
    createPsiGreens tok R Z = Ok pgreen /\
    createVcycle nx ny (GSsparse Rmin Rmax Zmin Zmax) 1 1 2 true = Ok solver /\
    eq = mkEquilibrium tok boundary Rmin Rmax Zmin Zmax R Z psi0 f pgreen 0
                       solver None.
Proof.
  cbv zeta. unfold Equilibrium_init, py_div.
  destruct (Qeq_bool (inject_Z (nx - 1)) 0); simpl; [discriminate|].
  destruct (Qeq_bool (inject_Z (ny - 1)) 0); simpl; [discriminate|].
  destruct (Qeq_bool (Zmax - Zmin) 0); simpl; [discriminate|].
  destruct (linspace01 nx) as [lx|e]; simpl; [|discriminate].
  destruct (linspace01 ny) as [ly|e]; simpl; [|discriminate].
  match goal with |- context [fill_edges ?a 0] =>
    destruct (fill_edges a 0) as [psi0|e] eqn:E0; simpl; [|discriminate] end.
  match goal with |- context [spline_over ?R ?Z psi0] =>
    destruct (spline_over R Z psi0) as [f|e] eqn:Ef; simpl; [|discriminate] end.
  match goal with |- context [createPsiGreens ?t ?R ?Z] =>
    destruct (createPsiGreens t R Z) as [pg|e] eqn:Eg; simpl;
      [|discriminate] end.
  match goal with |- context [createVcycle ?a ?b ?c ?d ?e ?f ?g] =>
    destruct (createVcycle a b c d e f g) as [sv|x] eqn:Ev; simpl;
      [|discriminate] end.
  intros H. inversion H.
  exists lx, ly, psi0, f, pg, sv. repeat split; assumption.
Qed.

(** An object exists only on a grid of at least 2 by 2 points of non-zero
    height. *)
Lemma init_sizes (tok : T) (Rmin Rmax Zmin Zmax : Q) (nx ny : Z)
      (boundary : B) (eq : EqT) :
  Equilibrium_init P tok Rmin Rmax Zmin Zmax nx ny boundary = Ok eq ->
  (2 <= nx)%Z /\ (2 <= ny)%Z /\ ~ Zmax == Zmin.
Proof.
  intros H.
  assert (E1 : nx = 1%Z \/ ny = 1%Z \/ Zmax == Zmin -> False).
  { intros C. apply (init_zero_division tok Rmin Rmax boundary) in C.
    rewrite H in C. discriminate C. }
  assert (Hx : nx <> 1%Z) by auto.
  assert (Hy : ny <> 1%Z) by auto.
  assert (HZ : ~ Zmax == Zmin) by auto.
  assert (E2 : (nx < 0)%Z \/ (ny < 0)%Z -> False).
  { intros C. apply (init_negative_size tok Rmin Rmax boundary Hx Hy HZ) in C.
    rewrite H in C. discriminate C. }
  assert (E3 : (nx = 0%Z /\ ny <> 1%Z /\ (0 <= ny)%Z) \/
               ((2 <= nx)%Z /\ ny = 0%Z) -> False).
  { intros C. apply (init_empty_size tok Rmin Rmax boundary HZ) in C.
    rewrite H in C. discriminate C. }
  repeat split; [| |exact HZ].
  - destruct (Z.ltb_spec nx 2); [|assumption].
    exfalso. destruct (Z.ltb_spec nx 0); [auto|].
    apply E3. left. repeat split; [lia | assumption |].
    destruct (Z.ltb_spec ny 0); [exfalso; auto | assumption].
  - destruct (Z.ltb_spec ny 2); [|assumption].
    exfalso. destruct (Z.ltb_spec ny 0); [auto|].
    destruct (Z.ltb_spec nx 2).
    + destruct (Z.ltb_spec nx 0); [auto|].
      apply E3. left. repeat split; [lia | assumption | assumption].
    + apply E3. right. split; [assumption | lia].
Qed.

Lemma fill_edges_spec (nx ny : nat) (a : field) (c : Q) :
  has_shape nx ny a -> (0 < nx)%nat -> (0 < ny)%nat ->
  exists a', fill_edges a c = Ok a' /\ has_shape nx ny a' /\
    forall i j, (i < nx)%nat -> (j < ny)%nat ->
      entry a' i j = if on_edge nx ny i j then c else entry a i j.
Proof.
  intros H Hnx Hny. unfold fill_edges, fill_row, fill_col.
  pose proof (has_shape_ncols H Hnx) as Hc0.
  destruct (set_row_spec 0 (repeat c (ncols a)) H (norm_index_first Hnx))
    as (a1 & E1 & H1 & S1); [rewrite repeat_length; exact Hc0|].
  rewrite E1. simpl.
  assert (L1 : length a1 = nx) by (destruct H1; assumption).
  destruct (set_col_spec 0 (repeat c (length a1)) H1 Hnx (norm_index_first Hny))
    as (a2 & E2 & H2 & S2); [rewrite repeat_length; exact L1|].
  rewrite E2. simpl.
  pose proof (has_shape_ncols H2 Hnx) as Hc2.
  destruct (set_row_spec (-1) (repeat c (ncols a2)) H2 (norm_index_last Hnx))
    as (a3 & E3 & H3 & S3); [rewrite repeat_length; exact Hc2|].
  rewrite E3. simpl.
  assert (L3 : length a3 = nx) by (destruct H3; assumption).
  destruct (set_col_spec (-1) (repeat c (length a3)) H3 Hnx
                         (norm_index_last Hny))
    as (a4 & E4 & H4 & S4); [rewrite repeat_length; exact L3|].
  exists a4. split; [exact E4|]. split; [exact H4|].
  intros i j Hi Hj. rewrite (S4 i j Hi), S3, (S2 i j Hi), S1.
  rewrite Hc0, Hc2, L1, L3, !nth_repeat_lt by assumption.
  unfold on_edge.
  destruct (Nat.eqb_spec j (ny - 1)); [rewrite !orb_true_r; reflexivity|].
  destruct (Nat.eqb_spec i (nx - 1)); [rewrite orb_true_r; reflexivity|].
  destruct (Nat.eqb_spec j 0); [rewrite orb_true_r; reflexivity|].
  destruct (Nat.eqb_spec i 0); reflexivity.
Qed.

(** The starting guess of a constructed object: zero on the four edges,
    and inside the bump [exp(-((x - 0.5)^2 + (y - yymid)^2) / 0.4^2)] at
    [x = i/(nx-1)], [y = j/(ny-1)], with [yymid = 1 - Zmax/(Zmax - Zmin)]. *)
Theorem constructed_flux (tok : T) (Rmin Rmax Zmin Zmax : Q) (nx ny : Z)
        (boundary : B) (eq : EqT) :
  Equilibrium_init P tok Rmin Rmax Zmin Zmax nx ny boundary = Ok eq ->
  has_shape (Z.to_nat nx) (Z.to_nat ny) (plasma_psi eq) /\
  forall i j, (i < Z.to_nat nx)%nat -> (j < Z.to_nat ny)%nat ->
    entry (plasma_psi eq) i j
    = if on_edge (Z.to_nat nx) (Z.to_nat ny) i j then 0
      else bump (1 - Zmax / (Zmax - Zmin))
                (inject_Z (Z.of_nat i) / inject_Z (nx - 1))
                (inject_Z (Z.of_nat j) / inject_Z (ny - 1)).
Proof.
  intros H. destruct (init_sizes _ _ _ _ _ _ _ _ H) as (Hnx & Hny & _).
  destruct (init_inv _ _ _ _ _ _ _ _ H)
    as (lx & ly & psi0 & f & pg & sv & Ex & Ey & E0 & _ & _ & _ & ->).
  simpl.
  assert (Elx : lx = map (fun i => inject_Z (Z.of_nat i) / inject_Z (nx - 1))
                         (seq 0 (Z.to_nat nx))).
  { unfold linspace01 in Ex. destruct (Z.ltb_spec nx 0); [lia|].
    destruct (Z.eqb_spec nx 1); [lia|]. congruence. }
  assert (Ely : ly = map (fun i => inject_Z (Z.of_nat i) / inject_Z (ny - 1))
                         (seq 0 (Z.to_nat ny))).
  { unfold linspace01 in Ey. destruct (Z.ltb_spec ny 0); [lia|].
    destruct (Z.eqb_spec ny 1); [lia|]. congruence. }
  assert (Lx : length lx = Z.to_nat nx)
    by (rewrite Elx, length_map, length_seq; reflexivity).
  assert (Ly : length ly = Z.to_nat ny)
    by (rewrite Ely, length_map, length_seq; reflexivity).
  destruct (meshgrid_ij_shape lx ly) as [Hxx Hyy]. rewrite Lx, Ly in Hxx, Hyy.
  pose proof (has_shape_zip (bump (1 - Zmax / (Zmax - Zmin))) Hxx Hyy) as Hz.
  destruct (fill_edges_spec 0 Hz) as (a' & Ea & Hs & Hent); [lia|lia|].
  rewrite Ea in E0. inversion E0; subst a'.
  split; [exact Hs|].
  intros i j Hi Hj. rewrite (Hent i j Hi Hj).
  destruct (on_edge (Z.to_nat nx) (Z.to_nat ny) i j); [reflexivity|].
  rewrite (entry_zip _ Hxx Hyy Hi Hj). f_equal.
  - unfold entry, meshgrid_ij. simpl.
    rewrite (nth_indep _ [] ((fun xi => map (fun _ => xi) ly) 0))
      by (rewrite length_map; lia).
    rewrite (map_nth (fun xi => map (fun _ : Q => xi) ly)).
    rewrite (nth_indep _ 0 ((fun _ : Q => nth i lx 0) 0))
      by (rewrite length_map; lia).
    rewrite (map_nth (fun _ : Q => nth i lx 0) ly 0 j).
    rewrite Elx.
    exact (nth_map_seq (fun i => inject_Z (Z.of_nat i) / inject_Z (nx - 1))
                       0 Hi).
  - unfold entry, meshgrid_ij. simpl.
    rewrite (nth_indep _ [] ((fun _ : Q => ly) 0))
      by (rewrite length_map; lia).
    rewrite (map_nth (fun _ : Q => ly) lx 0 i).
    rewrite Ely.
    exact (nth_map_seq (fun i => inject_Z (Z.of_nat i) / inject_Z (ny - 1))
                       0 Hj).
Qed.

(** ** Solve *)

Lemma same_setup_refl (a : EqT) : same_setup a a.
Proof. repeat split. Qed.

Lemma same_setup_trans (a b c : EqT) :
  same_setup a b -> same_setup b c -> same_setup a c.
Proof.
  unfold same_setup. intros H1 H2.
  decompose [and] H1. decompose [and] H2. repeat split; congruence.
Qed.

(** Where the body of [solve] ends, returning or raising: on the same
    setup, with the profiles recorded, and with the plasma current of
    before unless it returned. *)
Lemma solve_body_outcome (profiles : P) (eq : EqT) :
  match solve_body profiles eq with
  | Done _ st => same_setup st eq /\ _profiles st = Some profiles
  | Failed _ st => same_setup st eq /\ _profiles st = Some profiles /\
                   _current st = _current eq
  end.
Proof.
  unfold solve_body, Py.bind at 1 2 3. simpl.
  change (solve_Jtor profiles (with_profiles (Some profiles) eq))
    with (solve_Jtor profiles eq).
  destruct (solve_Jtor profiles eq) as [J|e]; simpl; [|repeat split].
  unfold Py.bind at 1. unfold solve_boundary. simpl.
  destruct (apply_boundary (_applyBoundary eq)
              (with_profiles (Some profiles) eq) J (plasma_psi eq))
    as [[] psi_b|e psi_b]; [|repeat split].
  unfold Py.bind at 1 2. simpl.
  destruct (solve_rhs (Rgrid eq) J psi_b) as [rhs|e]; simpl; [|repeat split].
  unfold Py.bind at 1. simpl.
  destruct (call_solver (_solver eq) psi_b rhs) as [psi'|e]; simpl;
    [|repeat split].
  unfold Py.bind at 1. unfold _updatePlasmaPsi, Py.bind at 1 2 3. simpl.
  destruct (spline_over (Rgrid eq) (Zgrid eq) psi') as [f|e]; simpl;
    [|repeat split].
  unfold solve_current, Py.bind. simpl.
  destruct (at2 (Rgrid eq) 1 0) as [r10|e]; simpl; [|repeat split].
  destruct (at2 (Rgrid eq) 0 0) as [r00|e]; simpl; [|repeat split].
  destruct (at2 (Zgrid eq) 0 1) as [z01|e]; simpl; [|repeat split].
  destruct (at2 (Zgrid eq) 0 0) as [z00|e]; simpl; [|repeat split].
  destruct (romb_romb J) as [I|e]; simpl; repeat split.
Qed.

Lemma solve_cases (args : list value) (kw : env value) (eq : EqT) :
  (exists e, solve args kw eq = Failed e eq) \/
  (exists profiles, solve args kw eq = solve_body profiles eq).
Proof.
  unfold solve, call_method.
  destruct (bind_args solve_params (VEq eq :: args) kw) as [locals|e];
    [|left; exists e; reflexivity].
  destruct (lookup "profiles"%string locals) as [v|];
    [|left; eexists; reflexivity].
  unfold Py.bind. destruct (as_profiles v) as [p|e]; simpl.
  - right. exists p. reflexivity.
  - left. exists e. reflexivity.
Qed.

(** A call of [solve], returning or raising, leaves the grids, the bounds,
    the machine, the table of Green's functions, the boundary strategy and
    the solver of the object as they were. *)
Theorem solve_keeps_setup (args : list value) (kw : env value) (eq : EqT) :
  same_setup (final_state (solve args kw eq)) eq.
Proof.
  destruct (solve_cases args kw eq) as [[e ->]|[p ->]].
  - apply same_setup_refl.
  - pose proof (solve_body_outcome p eq) as H.
    destruct (solve_body p eq); simpl; tauto.
Qed.

(** A call of [solve] that raises leaves the stored plasma current as it
    was: the current is assigned last. *)
Theorem failed_solve_keeps_current (args : list value) (kw : env value)
        (eq eq' : EqT) (e : exn) :
  solve args kw eq = Failed e eq' -> plasmaCurrent eq' = plasmaCurrent eq.
Proof.
  destruct (solve_cases args kw eq) as [[e0 ->]|[p ->]].
  - intros H. inversion H. reflexivity.
  - pose proof (solve_body_outcome p eq) as H.
    intros E. rewrite E in H. unfold plasmaCurrent. tauto.
Qed.

(** ** The accessors *)

(** On an object as the constructor returns it, every accessor of the
    profile functions raises [AttributeError]: the constructor does not set
    [_profiles]. *)
Theorem accessors_before_solve (tok : T) (Rmin Rmax Zmin Zmax : Q)
        (nx ny : Z) (boundary : B) (eq : EqT) (psinorm : Q) :
  Equilibrium_init P tok Rmin Rmax Zmin Zmax nx ny boundary = Ok eq ->
  pprime eq psinorm = Raise AttributeError /\
  ffprime eq psinorm = Raise AttributeError /\
  pressure eq psinorm = Raise AttributeError /\
  fpol eq psinorm = Raise AttributeError /\
  fvac eq = Raise AttributeError.
Proof.
  intros H. destruct (init_inv _ _ _ _ _ _ _ _ H)
    as (lx & ly & psi0 & f & pg & sv & _ & _ & _ & _ & _ & _ & ->).
  repeat split.
Qed.

(** After [eq.solve(profiles)], whether it returned or raised, the
    accessors answer from [profiles]: [solve] records the profiles before
    anything else. *)
Theorem accessors_after_solve (profiles : P) (eq : EqT) (psinorm : Q) :
  let eq' := final_state (solve [VProfiles profiles] [] eq) in
  pprime eq' psinorm = profile_pprime profiles psinorm /\
  ffprime eq' psinorm = profile_ffprime profiles psinorm /\
  pressure eq' psinorm = profile_pressure profiles psinorm /\
  fpol eq' psinorm = profile_fpol profiles psinorm /\
  fvac eq' = profile_fvac profiles.
Proof.
  cbv zeta. rewrite solve_positional.
  pose proof (solve_body_outcome profiles eq) as H.
  assert (E : _profiles (final_state (solve_body profiles eq))
              = Some profiles)
    by (destruct (solve_body profiles eq); simpl; tauto).
  unfold pprime, ffprime, pressure, fpol, fvac, get_profiles.
  rewrite E. repeat split.
Qed.

(** ** Romberg sizes in solve *)

Lemma romb1_raises (y : vec) (e : exn) :
  romb1 y = Raise e -> e = ValueError.
Proof.
  unfold romb1. destruct (length y) as [|N]; [congruence|].
  destruct (romb_levels N 1 0 N) as [n k].
  destruct (Nat.eqb n N); [discriminate | congruence].
Qed.

Lemma mapM_raises {X Y} (f : X -> result Y) (l : list X) (e : exn) :
  mapM f l = Raise e -> exists x, In x l /\ f x = Raise e.
Proof.
  induction l as [|a l IH]; simpl; [discriminate|].
  destruct (f a) as [b|e0] eqn:Ea; simpl.
  - destruct (mapM f l) as [bs|e1]; simpl; [discriminate|].
    intros H. inversion H; subst. destruct (IH eq_refl) as (x & Hx & Ex).
    exists x. auto.
  - intros H. inversion H; subst. exists a. auto.
Qed.

(** The double integral of an array with a size that is not [2^k + 1]
    along one of its axes raises [ValueError]. *)
Lemma romb_romb_rejects (nx ny : nat) (J : field) :
  has_shape nx ny J -> (0 < nx)%nat ->
  ~ (romb_size nx /\ romb_size ny) ->
  romb_romb J = Raise ValueError.
Proof.
  intros [Hl Hr] Hnx Hno. unfold romb_romb, romb2.
  destruct (mapM romb1 J) as [inner|e] eqn:Em; simpl.
  - destruct (mapM_ok _ _ Em) as [Hlen Hrows].
    apply romb1_rejects. intros Hx. apply Hno. split.
    + rewrite <- Hl, <- Hlen. exact Hx.
    + destruct J as [|r J]; [simpl in Hl; lia|].
      assert (Hr0 : length r = ny)
        by (rewrite Forall_forall in Hr; apply Hr; left; reflexivity).
      rewrite <- Hr0. apply romb1_accepts. apply Hrows. left. reflexivity.
  - destruct (mapM_raises _ _ Em) as (x & _ & Ex).
    rewrite (romb1_raises _ Ex). reflexivity.
Qed.

(** On a grid with a size that is not [2^k + 1], a solve whose steps up to
    the update of the flux all succeed raises [ValueError] in the
    integration of the current, after the flux and the spline have been
    replaced: the size is turned down late, with the object changed. *)
Theorem solve_rejects_size_late (profiles : P) (eq eq1 : EqT)
        (J rhs psi' : field) (f : Sp) (nx ny : nat) :
  solve_Jtor profiles eq = Ok J ->
  solve_boundary J (with_profiles (Some profiles) eq) = Done tt eq1 ->
  solve_rhs (Rgrid eq) J (plasma_psi eq1) = Ok rhs ->
  call_solver (_solver eq) (plasma_psi eq1) rhs = Ok psi' ->
  spline_over (Rgrid eq) (Zgrid eq) psi' = Ok f ->
  has_shape nx ny J -> has_shape nx ny (Rgrid eq) ->
  has_shape nx ny (Zgrid eq) -> (2 <= nx)%nat -> (2 <= ny)%nat ->
  ~ (romb_size nx /\ romb_size ny) ->
  solve_body profiles eq
  = Failed ValueError (with_psi_func f (with_plasma_psi psi' eq1)).
Proof.
  intros HJ Hb Hrhs Hs Hf HsJ HsR HsZ Hnx Hny Hno.
  destruct (solve_boundary_frame _ _ Hb) as [psi_b ->]. simpl in *.
  unfold solve_body, Py.bind at 1 2 3. simpl.
  change (solve_Jtor profiles (with_profiles (Some profiles) eq))
    with (solve_Jtor profiles eq).
  rewrite HJ. simpl. unfold Py.bind at 1. rewrite Hb.
  unfold Py.bind at 1 2. simpl. rewrite Hrhs. simpl.
  unfold Py.bind at 1. simpl. rewrite Hs. simpl.
  unfold Py.bind at 1. unfold _updatePlasmaPsi, Py.bind at 1 2 3. simpl.
  rewrite Hf. simpl.
  unfold solve_current, Py.bind. simpl.
  assert (A1 : at2 (Rgrid eq) 1 0 = Ok (entry (Rgrid eq) 1 0))
    by (apply (at2_entry (i:=1) (j:=0) HsR); lia).
  assert (A2 : at2 (Rgrid eq) 0 0 = Ok (entry (Rgrid eq) 0 0))
    by (apply (at2_entry (i:=0) (j:=0) HsR); lia).
  assert (A3 : at2 (Zgrid eq) 0 1 = Ok (entry (Zgrid eq) 0 1))
    by (apply (at2_entry (i:=0) (j:=1) HsZ); lia).
  assert (A4 : at2 (Zgrid eq) 0 0 = Ok (entry (Zgrid eq) 0 0))
    by (apply (at2_entry (i:=0) (j:=0) HsZ); lia).
  rewrite A1, A2, A3, A4. simpl. rewrite (romb_romb_rejects HsJ) by (lia || assumption).
  reflexivity.
Qed.

(** ** Refine and coarsen *)

Lemma regrid_inv (transfer : field -> result field) (eq r : EqT) :
  regrid transfer eq = Ok r ->
  exists psi res f,
    transfer (plasma_psi eq) = Ok psi /\
    Equilibrium_init P (tokamak eq) (Rmin eq) (Rmax eq) (Zmin eq) (Zmax eq)
                     (Z.of_nat (length psi)) (Z.of_nat (ncols psi))
                     (@freeBoundary T G P Sp Sv B bnd) = Ok res /\
    spline_over (Rgrid res) (Zgrid res) psi = Ok f /\
    r = with_profiles (_profiles eq)
          (with_psi_func f (with_plasma_psi psi res)).
Proof.
  unfold regrid. intros H.
  destruct (transfer (plasma_psi eq)) as [psi|e]; simpl in H;
    [|discriminate H].
  match type of H with context [Equilibrium_init ?a ?b ?c ?d ?e ?f ?g ?h ?i] =>
    destruct (Equilibrium_init a b c d e f g h i) as [res|x] eqn:Ei;
      simpl in H; [|discriminate H] end.
  destruct (_updatePlasmaPsi psi res) as [[] r'|x r'] eqn:Eu;
    [|discriminate H].
  destruct (update_done _ _ Eu) as (f & Ef & ->).
  inversion H. exists psi, res, f. repeat split; assumption.
Qed.

(** What [refine] and [coarsen] return: a new object on the grid of the
    transferred flux (at least 2 by 2), within the bounds and with the
    machine and the profiles of the original, carrying the transferred flux
    and its spline; with the free boundary strategy whatever the original
    had, and with no plasma current. *)
Theorem regrid_result (eq r : EqT) :
  refine eq = Ok r \/ coarsen eq = Ok r ->
  exists psi,
    (interpolate (plasma_psi eq) = Ok psi \/
     restrict (plasma_psi eq) = Ok psi) /\
    plasma_psi r = psi /\ spline_current r /\
    (2 <= length psi)%nat /\ (2 <= ncols psi)%nat /\
    has_shape (length psi) (ncols psi) (Rgrid r) /\
    has_shape (length psi) (ncols psi) (Zgrid r) /\
    tokamak r = tokamak eq /\
    Rmin r = Rmin eq /\ Rmax r = Rmax eq /\
    Zmin r = Zmin eq /\ Zmax r = Zmax eq /\
    _profiles r = _profiles eq /\
    _applyBoundary r = @freeBoundary T G P Sp Sv B bnd /\
    plasmaCurrent r = 0.
Proof.
  intros H.
  assert (Hinv : exists transfer,
             (transfer = interpolate \/ transfer = restrict) /\
             regrid transfer eq = Ok r).
  { destruct H as [H|H]; [exists interpolate | exists restrict]; auto. }
  destruct Hinv as (transfer & Ht & Hr).
  destruct (regrid_inv _ _ Hr) as (psi & res & f & Ep & Ei & Ef & ->).
  destruct (init_sizes _ _ _ _ _ _ _ _ Ei) as (Hnx & Hny & _).
  destruct (init_done _ _ _ _ _ _ _ _ Ei) as (_ & _ & ER & EZ).
  destruct (init_inv _ _ _ _ _ _ _ _ Ei)
    as (lx & ly & psi0 & f0 & pg & sv & _ & _ & _ & _ & _ & _ & Eres).
  exists psi. split.
  { destruct Ht as [-> | ->]; auto. }
  split; [reflexivity|]. split; [exact Ef|].
  split; [lia|]. split; [lia|]. simpl.
  split.
  { rewrite ER. rewrite <- (Nat2Z.id (length psi)) at 1.
    rewrite <- (Nat2Z.id (ncols psi)) at 1. apply grid_R_shape. }
  split.
  { rewrite EZ. rewrite <- (Nat2Z.id (length psi)) at 1.
    rewrite <- (Nat2Z.id (ncols psi)) at 1. apply grid_Z_shape. }
  rewrite Eres. simpl. repeat split.
Qed.

(** ** The solver of an object in use *)

Lemma update_keeps_setup (psi : field) (eq : EqT) :
  same_setup (final_state (_updatePlasmaPsi psi eq)) eq.
Proof.
  unfold _updatePlasmaPsi, Py.bind. simpl.
  destruct (spline_over (Rgrid eq) (Zgrid eq) psi); simpl; repeat split.
Qed.

Lemma solve_setup (args : list value) (kw : env value) (eq : EqT) :
  same_setup (final_state (solve args kw eq)) eq.
Proof.
  destruct (solve_cases args kw eq) as [[e ->]|[p ->]].
  - apply same_setup_refl.
  - pose proof (solve_body_outcome p eq) as H.
    destruct (solve_body p eq); simpl; tauto.
Qed.

(** For every object in use, the solver it holds is the V-cycle solver the
    constructor built on the object's grid with one level, one cycle, two
    sweeps and the direct solve; the grids are the constructor's, and the
    table of Green's functions is the one computed on them. No operation
    of the class puts another solver or another grid in place. *)
Theorem solver_is_the_constructors (eq : EqT) :
  in_use eq ->
  exists nx ny,
    (2 <= nx)%Z /\ (2 <= ny)%Z /\
    createVcycle nx ny (GSsparse (Rmin eq) (Rmax eq) (Zmin eq) (Zmax eq))
                 1 1 2 true = Ok (_solver eq) /\
    Rgrid eq = grid_R (Rmin eq) ((Rmax eq - Rmin eq) / inject_Z (nx - 1))
                      nx ny /\
    Zgrid eq = grid_Z (Zmin eq) ((Zmax eq - Zmin eq) / inject_Z (ny - 1))
                      nx ny /\
    createPsiGreens (tokamak eq) (Rgrid eq) (Zgrid eq) = Ok (_pgreen eq).
Proof.
  assert (Hinit : forall tok Rmin Rmax Zmin Zmax nx ny b (self : EqT),
             Equilibrium_init P tok Rmin Rmax Zmin Zmax nx ny b = Ok self ->
             exists nx ny,
               (2 <= nx)%Z /\ (2 <= ny)%Z /\
               createVcycle nx ny
                 (GSsparse (equilibrium.Rmin self) (equilibrium.Rmax self)
                           (equilibrium.Zmin self) (equilibrium.Zmax self))
                 1 1 2 true = Ok (_solver self) /\
               Rgrid self
               = grid_R (equilibrium.Rmin self)
                   ((equilibrium.Rmax self - equilibrium.Rmin self)
                    / inject_Z (nx - 1)) nx ny /\
               Zgrid self
               = grid_Z (equilibrium.Zmin self)
                   ((equilibrium.Zmax self - equilibrium.Zmin self)
                    / inject_Z (ny - 1)) nx ny /\
               createPsiGreens (tokamak self) (Rgrid self) (Zgrid self)
               = Ok (_pgreen self)).
  { intros tok Rmin Rmax Zmin Zmax nx ny b self H.
    destruct (init_sizes _ _ _ _ _ _ _ _ H) as (Hnx & Hny & _).
    destruct (init_inv _ _ _ _ _ _ _ _ H)
      as (lx & ly & psi0 & f & pg & sv & _ & _ & _ & _ & Eg & Ev & ->).
    exists nx, ny. simpl. repeat split; assumption. }
  assert (Hsame : forall a b : EqT, same_setup a b ->
             (exists nx ny,
               (2 <= nx)%Z /\ (2 <= ny)%Z /\
               createVcycle nx ny
                 (GSsparse (Rmin b) (Rmax b) (Zmin b) (Zmax b))
                 1 1 2 true = Ok (_solver b) /\
               Rgrid b = grid_R (Rmin b) ((Rmax b - Rmin b) / inject_Z (nx - 1))
                                nx ny /\
               Zgrid b = grid_Z (Zmin b) ((Zmax b - Zmin b) / inject_Z (ny - 1))
                                nx ny /\
               createPsiGreens (tokamak b) (Rgrid b) (Zgrid b)
               = Ok (_pgreen b)) ->
             exists nx ny,
               (2 <= nx)%Z /\ (2 <= ny)%Z /\
               createVcycle nx ny
                 (GSsparse (Rmin a) (Rmax a) (Zmin a) (Zmax a))
                 1 1 2 true = Ok (_solver a) /\
               Rgrid a = grid_R (Rmin a) ((Rmax a - Rmin a) / inject_Z (nx - 1))
                                nx ny /\
               Zgrid a = grid_Z (Zmin a) ((Zmax a - Zmin a) / inject_Z (ny - 1))
                                nx ny /\
               createPsiGreens (tokamak a) (Rgrid a) (Zgrid a)
               = Ok (_pgreen a)).
  { intros a b Hs (nx & ny & H).
    unfold same_setup in Hs. decompose [and] Hs.
    exists nx, ny. congruence. }
  induction 1 as [tok Rmin Rmax Zmin Zmax nx ny b self H
                 |args kw self Hu IH
                 |psi self Hu IH
                 |as_main args kw self Hu IH
                 |as_main args kw self Hu IH
                 |eq0 self Hu IH Hr
                 |eq0 self Hu IH Hr].
  - eapply Hinit; eauto.
  - apply (Hsame _ self); [apply solve_setup | exact IH].
  - apply (Hsame _ self); [apply update_keeps_setup | exact IH].
  - rewrite setSolverVcycle_state. exact IH.
  - rewrite setSolver_state. exact IH.
  - destruct (regrid_inv _ _ Hr) as (psi & res & f & _ & Ei & _ & ->).
    apply (Hsame _ res); [repeat split | eapply Hinit; eauto].
  - destruct (regrid_inv _ _ Hr) as (psi & res & f & _ & Ei & _ & ->).
    apply (Hsame _ res); [repeat split | eapply Hinit; eauto].
Qed.

(** ** The grids of an object in use *)

Lemma in_use_grids (eq : EqT) :
  in_use eq ->
  exists nx ny,
    (2 <= nx)%Z /\ (2 <= ny)%Z /\
    Rgrid eq = grid_R (Rmin eq) ((Rmax eq - Rmin eq) / inject_Z (nx - 1))
                      nx ny /\
    Zgrid eq = grid_Z (Zmin eq) ((Zmax eq - Zmin eq) / inject_Z (ny - 1))
                      nx ny.
Proof.
  assert (Hinit : forall tok Rmin Rmax Zmin Zmax nx ny b (self : EqT),
             Equilibrium_init P tok Rmin Rmax Zmin Zmax nx ny b = Ok self ->
             exists nx ny,
               (2 <= nx)%Z /\ (2 <= ny)%Z /\
               Rgrid self
               = grid_R (equilibrium.Rmin self)
                   ((equilibrium.Rmax self - equilibrium.Rmin self)
                    / inject_Z (nx - 1)) nx ny /\
               Zgrid self
               = grid_Z (equilibrium.Zmin self)
                   ((equilibrium.Zmax self - equilibrium.Zmin self)
                    / inject_Z (ny - 1)) nx ny).
  { intros tok Rmin Rmax Zmin Zmax nx ny b self H.
    destruct (init_sizes _ _ _ _ _ _ _ _ H) as (Hnx & Hny & _).
    destruct (init_inv _ _ _ _ _ _ _ _ H)
      as (lx & ly & psi0 & f & pg & sv & _ & _ & _ & _ & _ & _ & ->).
    exists nx, ny. simpl. repeat split; assumption. }
  assert (Hsame : forall a b : EqT, same_setup a b ->
             (exists nx ny,
               (2 <= nx)%Z /\ (2 <= ny)%Z /\
               Rgrid b = grid_R (Rmin b) ((Rmax b - Rmin b) / inject_Z (nx - 1))
                                nx ny /\
               Zgrid b = grid_Z (Zmin b) ((Zmax b - Zmin b) / inject_Z (ny - 1))
                                nx ny) ->
             exists nx ny,
               (2 <= nx)%Z /\ (2 <= ny)%Z /\
               Rgrid a = grid_R (Rmin a) ((Rmax a - Rmin a) / inject_Z (nx - 1))
                                nx ny /\
               Zgrid a = grid_Z (Zmin a) ((Zmax a - Zmin a) / inject_Z (ny - 1))
                                nx ny).
  { intros a b Hs (nx & ny & H).
    unfold same_setup in Hs. decompose [and] Hs.
    exists nx, ny. congruence. }
  induction 1 as [tok Rmin Rmax Zmin Zmax nx ny b self H
                 |args kw self Hu IH
                 |psi self Hu IH
                 |as_main args kw self Hu IH
                 |as_main args kw self Hu IH
                 |eq0 self Hu IH Hr
                 |eq0 self Hu IH Hr].
  - eapply Hinit; eauto.
  - apply (Hsame _ self); [apply solve_setup | exact IH].
  - apply (Hsame _ self); [apply update_keeps_setup | exact IH].
  - rewrite setSolverVcycle_state. exact IH.
  - rewrite setSolver_state. exact IH.
  - destruct (regrid_inv _ _ Hr) as (psi & res & f & _ & Ei & _ & ->).
    apply (Hsame _ res); [repeat split | eapply Hinit; eauto].
  - destruct (regrid_inv _ _ Hr) as (psi & res & f & _ & Ei & _ & ->).
    apply (Hsame _ res); [repeat split | eapply Hinit; eauto].
Qed.

Lemma in_use_shapes (eq : EqT) :
  in_use eq ->
  exists nx ny : nat,
    (2 <= nx)%nat /\ (2 <= ny)%nat /\
    has_shape nx ny (Rgrid eq) /\ has_shape nx ny (Zgrid eq).
Proof.
  intros H. destruct (in_use_grids H) as (nx & ny & Hnx & Hny & ER & EZ).
  exists (Z.to_nat nx), (Z.to_nat ny).
  split; [lia|]. split; [lia|]. rewrite ER, EZ.
  split; [apply grid_R_shape | apply grid_Z_shape].
Qed.

(** Every object in use has grids [R] and [Z] of one shape, at least 2 by
    2 points, on a separable mesh: [R] depends on its first index only and
    starts at [Rmin], [Z] depends on its second index only and starts at
    [Zmin]. No operation of the class writes the grids after the
    constructor. *)
Theorem grid_is_separable (eq : EqT) :
  in_use eq ->
  exists nx ny : nat,
    (2 <= nx)%nat /\ (2 <= ny)%nat /\
    has_shape nx ny (Rgrid eq) /\ has_shape nx ny (Zgrid eq) /\
    forall i j, (i < nx)%nat -> (j < ny)%nat ->
      entry (Rgrid eq) i j = entry (Rgrid eq) i 0 /\
      entry (Zgrid eq) i j = entry (Zgrid eq) 0 j /\
      entry (Rgrid eq) 0 j == Rmin eq /\
      entry (Zgrid eq) i 0 == Zmin eq.
Proof.
  intros H. destruct (in_use_grids H) as (nx & ny & Hnx & Hny & ER & EZ).
  exists (Z.to_nat nx), (Z.to_nat ny).
  split; [lia|]. split; [lia|]. rewrite ER, EZ.
  split; [apply grid_R_shape|]. split; [apply grid_Z_shape|].
  intros i j Hi Hj.
  rewrite !grid_R_entry, !grid_Z_entry by lia.
  repeat split; simpl; ring.
Qed.

Lemma romb_romb_raises (J : field) (e : exn) :
  romb_romb J = Raise e -> e = ValueError.
Proof.
  unfold romb_romb, romb2.
  destruct (mapM romb1 J) as [inner|e0] eqn:Em; simpl.
  - apply romb1_raises.
  - intros H. inversion H; subst.
    destruct (mapM_raises _ _ Em) as (x & _ & Ex).
    exact (romb1_raises _ Ex).
Qed.

(** On every object in use, the four reads [R[1,0]], [R[0,0]], [Z[0,1]],
    [Z[0,0]] with which [solve] takes [dR] and [dZ] are in range; so the
    last statements of [solve], which set the plasma current, either
    succeed or raise the [ValueError] of the Romberg integration, leaving
    the object as it is: they never raise [IndexError]. *)
Theorem current_update_raises_only_in_romb (eq : EqT) (J : field) :
  in_use eq ->
  (exists r10 r00 z01 z00,
      at2 (Rgrid eq) 1 0 = Ok r10 /\ at2 (Rgrid eq) 0 0 = Ok r00 /\
      at2 (Zgrid eq) 0 1 = Ok z01 /\ at2 (Zgrid eq) 0 0 = Ok z00) /\
  ((exists eq', solve_current J eq = Done tt eq') \/
   solve_current J eq = Failed ValueError eq).
Proof.
  intros H. destruct (in_use_shapes H) as (nx & ny & Hnx & Hny & HR & HZ).
  assert (A1 : at2 (Rgrid eq) 1 0 = Ok (entry (Rgrid eq) 1 0))
    by (apply (at2_entry (i:=1) (j:=0) HR); lia).
  assert (A2 : at2 (Rgrid eq) 0 0 = Ok (entry (Rgrid eq) 0 0))
    by (apply (at2_entry (i:=0) (j:=0) HR); lia).
  assert (A3 : at2 (Zgrid eq) 0 1 = Ok (entry (Zgrid eq) 0 1))
    by (apply (at2_entry (i:=0) (j:=1) HZ); lia).
  assert (A4 : at2 (Zgrid eq) 0 0 = Ok (entry (Zgrid eq) 0 0))
    by (apply (at2_entry (i:=0) (j:=0) HZ); lia).
  split; [do 4 eexists; repeat split; eassumption|].
  unfold solve_current, Py.bind. simpl. rewrite A1, A2, A3, A4. simpl.
  destruct (romb_romb J) as [I|e] eqn:Er; simpl.
  - left. eexists. reflexivity.
  - right. rewrite (romb_romb_raises _ Er). reflexivity.
Qed.

End MoreEquilibrium.

(** * More of the Picard driver *)

Section MorePicard.

Import picard.

Variables E P : Type.
Variable iface : EqObject E P.
Variable profiles : P.
Variables rtol blend : Q.
Variables niter sublevels ncycle : Z.

(** ** The blend *)

Lemma elementwise_ok (f : Q -> Q -> Q) (a b c : field) :
  elementwise f a b = Ok c ->
  same_shape a b = true /\ c = zip_with (zip_with f) a b.
Proof.
  unfold elementwise. destruct (same_shape a b); [|discriminate].
  intros H. inversion H. split; reflexivity.
Qed.

Lemma same_shape_fmap (f g : Q -> Q) (a b : field) :
  same_shape (fmap f a) (fmap g b) = same_shape a b.
Proof.
  revert b. induction a as [|r a IH]; intros [|s b]; simpl; try reflexivity.
  rewrite !length_map, IH. reflexivity.
Qed.

Lemma blend_row (u v : vec) :
  veq (zip_with Qplus (map (Qmult (1 - blend)) u)
                (map (Qmult blend) (zip_with Qminus v u)))
      (zip_with (fun new old => (1 - 2 * blend) * new + blend * old) u v).
Proof.
  revert v. induction u as [|x u IH]; intros [|y v]; simpl;
    try constructor.
  - ring.
  - apply IH.
Qed.

Lemma blend_field (a b : field) :
  feq (zip_with (zip_with Qplus) (fmap (Qmult (1 - blend)) a)
                (fmap (Qmult blend) (zip_with (zip_with Qminus) b a)))
      (zip_with (zip_with (fun new old => (1 - 2 * blend) * new + blend * old))
                a b).
Proof.
  revert b. induction a as [|r a IH]; intros [|s b]; simpl;
    try constructor.
  - apply blend_row.
  - apply IH.
Qed.

(** Without a constraint, a turn that goes on carries the flux
    [(1 - 2*blend) * psi_n1 + blend * psi_n] to the next, for [psi_n] the
    flux it was entered with and [psi_n1] the total flux after its solve:
    the new flux has the weight [1 - 2*blend], not [1 - blend]. *)
Theorem carried_flux_without_constraint (psi_n psi_c : field)
        (s s' : frame E) :
  iteration iface profiles None rtol blend niter sublevels ncycle psi_n s
  = Done (Some psi_c) s' ->
  exists psi_n1,
    eq_psi iface (obj s') = Ok psi_n1 /\
    same_shape psi_n psi_n1 = true /\
    feq psi_c
        (zip_with (zip_with (fun new old =>
                               (1 - 2 * blend) * new + blend * old))
                  psi_n1 psi_n).
Proof.
  intros H. apply iteration_continue in H as (d & r & s0 & Hc & _ & Hp).
  destruct (compare_done _ _ _ _ _ _ _ Hc) as (e1 & psi1 & _ & -> & Hpsi & Hd & _).
  destruct (prepare_done _ _ _ _ _ Hp) as (psi_new & Hn & Hb & ->).
  simpl in Hn. assert (psi_new = psi1) by congruence. subst psi_new.
  exists psi1. split; [exact Hpsi|].
  apply elementwise_ok in Hd as [Hs ->].
  unfold blended in Hb. apply elementwise_ok in Hb as [_ ->].
  split; [exact Hs|]. apply blend_field.
Qed.

Lemma unblended_row (u w : vec) :
  blend == 0 -> length u = length w ->
  veq (zip_with Qplus (map (Qmult (1 - blend)) u) (map (Qmult blend) w)) u.
Proof.
  intros Hb. revert w. induction u as [|x u IH]; intros [|y w] Hl;
    simpl in *; try discriminate; constructor.
  - rewrite Hb. ring.
  - apply IH. congruence.
Qed.

Lemma unblended_field (a d : field) :
  blend == 0 -> same_shape a d = true ->
  feq (zip_with (zip_with Qplus) (fmap (Qmult (1 - blend)) a)
                (fmap (Qmult blend) d)) a.
Proof.
  intros Hb. revert d. induction a as [|r a IH]; intros [|s d] Hs;
    simpl in *; try discriminate; constructor.
  - apply andb_true_iff in Hs as [Hl _]. apply Nat.eqb_eq in Hl.
    apply unblended_row; assumption.
  - apply andb_true_iff in Hs as [_ Hs]. apply IH. exact Hs.
Qed.

(** With [blend = 0], a turn that goes on carries to the next the total
    flux read after the constraint, as it is. *)
Theorem carried_flux_without_blend (constrain : option (M E unit))
        (psi_n psi_c : field) (s s' : frame E) :
  blend == 0 ->
  iteration iface profiles constrain rtol blend niter sublevels ncycle
            psi_n s = Done (Some psi_c) s' ->
  exists psi_new, eq_psi iface (obj s') = Ok psi_new /\ feq psi_c psi_new.
Proof.
  intros Hb H. apply iteration_continue in H as (d & r & s0 & _ & _ & Hp).
  destruct (prepare_done _ _ _ _ _ Hp) as (psi_new & Hn & Hbl & _).
  exists psi_new. split; [exact Hn|].
  unfold blended, add in Hbl. apply elementwise_ok in Hbl as [Hs ->].
  unfold scale in *. rewrite same_shape_fmap in Hs.
  apply unblended_field; assumption.
Qed.

(** ** The test *)

Lemma fold_max_le (l : vec) : forall x, x <= fold_left Qmax l x.
Proof.
  induction l as [|y l IH]; intros x; simpl; [apply Qle_refl|].
  eapply Qle_trans; [apply Q.le_max_l | apply IH].
Qed.

Lemma fold_min_le (l : vec) : forall x, fold_left Qmin l x <= x.
Proof.
  induction l as [|y l IH]; intros x; simpl; [apply Qle_refl|].
  eapply Qle_trans; [apply IH | apply Q.le_min_l].
Qed.

Lemma fold_max_const (c : Q) (l : vec) :
  Forall (fun y => y == c) l -> forall x, x == c -> fold_left Qmax l x == c.
Proof.
  induction 1 as [|y l Hy _ IH]; intros x Hx; simpl; [exact Hx|].
  apply IH. destruct (Q.max_spec x y) as [[_ ->]|[_ ->]]; assumption.
Qed.

Lemma fold_min_const (c : Q) (l : vec) :
  Forall (fun y => y == c) l -> forall x, x == c -> fold_left Qmin l x == c.
Proof.
  induction 1 as [|y l Hy _ IH]; intros x Hx; simpl; [exact Hx|].
  apply IH. destruct (Q.min_spec x y) as [[_ ->]|[_ ->]]; assumption.
Qed.

Lemma uniform_concat (c : Q) (a : field) :
  uniform c a -> Forall (fun y => y == c) (concat a).
Proof.
  induction 1 as [|r a Hr _ IH]; simpl; [constructor|].
  apply Forall_app. split; assumption.
Qed.

Lemma amax_amin_order (a : field) (hi lo : Q) :
  amax a = Ok hi -> amin a = Ok lo -> lo <= hi.
Proof.
  unfold amax, amin, reduce. destruct (concat a) as [|x l]; [discriminate|].
  intros H1 H2. inversion H1. inversion H2.
  eapply Qle_trans; [apply fold_min_le | apply fold_max_le].
Qed.

Lemma amax_abs_nonneg (d : field) (m : Q) : amax (abs d) = Ok m -> 0 <= m.
Proof.
  unfold amax, reduce. destruct (concat (abs d)) as [|x l] eqn:Ec;
    [discriminate|].
  intros H. inversion H.
  eapply Qle_trans; [|apply fold_max_le].
  assert (Hin : In x (concat (abs d))) by (rewrite Ec; left; reflexivity).
  apply in_concat in Hin as (row & Hrow & Hx).
  unfold abs, fmap in Hrow. apply in_map_iff in Hrow as (row0 & <- & _).
  apply in_map_iff in Hx as (y & <- & _). apply Qabs_nonneg.
Qed.

Lemma compare_relchange (psi d : field) (r : xfloat) (s s' : frame E) :
  compare iface profiles niter sublevels ncycle psi s = Done (d, r) s' ->
  exists psi1 m hi lo,
    eq_psi iface (obj s') = Ok psi1 /\
    amax (abs d) = Ok m /\ amax psi1 = Ok hi /\ amin psi1 = Ok lo /\
    r = np_div m (hi - lo).
Proof.
  intros Hc.
  destruct (compare_done _ _ _ _ _ _ _ Hc) as (e1 & psi1 & _ & -> & Hp & _ & Hr).
  unfold relchange in Hr.
  destruct (amax (abs d)) as [m|x] eqn:Em; simpl in Hr; [|discriminate Hr].
  destruct (amax psi1) as [hi|x] eqn:Eh; simpl in Hr; [|discriminate Hr].
  destruct (amin psi1) as [lo|x] eqn:El; simpl in Hr; [|discriminate Hr].
  inversion Hr. exists psi1, m, hi, lo. simpl. repeat split; assumption.
Qed.

(** A turn whose solve leaves a total flux that is the same at every grid
    point never leaves the loop, whatever the change and the tolerance:
    the range [amax(psi) - amin(psi)] is zero, the relative change is not
    finite, and the test is false. *)
Theorem uniform_flux_never_converges (constrain : option (M E unit))
        (psi d psi1 : field) (r : xfloat) (s s' : frame E) (c : Q) :
  compare iface profiles niter sublevels ncycle psi s = Done (d, r) s' ->
  eq_psi iface (obj s') = Ok psi1 ->
  uniform c psi1 ->
  r = NonFinite /\
  forall s'',
    iteration iface profiles constrain rtol blend niter sublevels ncycle
              psi s <> Done None s''.
Proof.
  intros Hc Hp Hu.
  destruct (compare_relchange _ _ Hc) as (psi1' & m & hi & lo & Hp' & _ & Hh & Hl & ->).
  assert (psi1' = psi1) by congruence. subst psi1'.
  assert (Hz : hi - lo == 0).
  { unfold amax, amin, reduce in Hh, Hl.
    pose proof (uniform_concat Hu) as Hall.
    destruct (concat psi1) as [|x l]; [discriminate Hh|].
    inversion Hall; subst. inversion Hh. inversion Hl.
    rewrite (fold_max_const H2 H1), (fold_min_const H2 H1). ring. }
  assert (Er : np_div m (hi - lo) = NonFinite).
  { unfold np_div. rewrite (Qeq_eq_bool _ _ Hz). reflexivity. }
  split; [exact Er|].
  intros s'' Hi. apply iteration_break in Hi as (d' & r' & Hc' & Hx).
  rewrite Hc in Hc'. inversion Hc'; subst. rewrite Er in Hx. discriminate Hx.
Qed.

(** With a tolerance that is not positive no turn leaves the loop: the
    relative change is never negative. *)
Theorem nonpositive_tolerance_never_converges
        (constrain : option (M E unit)) (psi : field) (s s' : frame E) :
  rtol <= 0 ->
  iteration iface profiles constrain rtol blend niter sublevels ncycle psi s
  <> Done None s'.
Proof.
  intros Hr Hi. apply iteration_break in Hi as (d & r & Hc & Hx).
  destruct (compare_relchange _ _ Hc) as (psi1 & m & hi & lo & _ & Hm & Hh & Hl & ->).
  pose proof (amax_abs_nonneg _ Hm) as Hm0.
  pose proof (amax_amin_order _ Hh Hl) as Hord.
  unfold np_div in Hx. destruct (Qeq_bool (hi - lo) 0) eqn:Ez;
    [discriminate Hx|].
  apply Qeq_bool_neq in Ez. simpl in Hx.
  apply negb_true_iff in Hx.
  assert (Hq : rtol <= m / (hi - lo)).
  { eapply Qle_trans; [exact Hr|].
    apply Qle_shift_div_l; [|lra].
    destruct (Qlt_le_dec 0 (hi - lo)) as [Hpos|Hneg]; [exact Hpos|].
    exfalso. apply Ez. lra. }
  apply Qle_bool_iff in Hq. congruence.
Qed.

End MorePicard.

(** * The further properties at work *)

Section MoreRuns.

Import Demo equilibrium picard.

#[local] Abbreviation Gen4 := (Q * Q * Q * Q)%type.

Lemma make_eq5 : make 5 5 1 = Ok eq5.
Proof. vm_compute. reflexivity. Qed.

Lemma init_own_errors_witness :
  1%Z = 1%Z /\ make 1 5 1 = Raise ZeroDivisionError.
Proof.
  split; [reflexivity|].
  exact (proj1 (init_own_errors (P:=field) (Gen:=Gen4) tt (1 # 10) 2 (-1) 1
                                1 5 1) eq_refl).
Defined.

Lemma eq5_solved_in_use : in_use (Gen:=Gen4) eq5_solved.
Proof.
  change eq5_solved
    with (final_state (equilibrium.solve (Gen:=Gen4) [VProfiles J5] [] eq5)).
  apply use_solve. exact (use_init (Gen:=Gen4) _ _ _ _ _ _ _ _ make_eq5).
Qed.

Lemma grid_is_separable_witness :
  in_use (Gen:=Gen4) eq5_solved /\
  exists nx ny : nat,
    (2 <= nx)%nat /\ (2 <= ny)%nat /\
    has_shape nx ny (Rgrid eq5_solved) /\
    has_shape nx ny (Zgrid eq5_solved) /\
    forall i j, (i < nx)%nat -> (j < ny)%nat ->
      entry (Rgrid eq5_solved) i j = entry (Rgrid eq5_solved) i 0 /\
      entry (Zgrid eq5_solved) i j = entry (Zgrid eq5_solved) 0 j /\
      entry (Rgrid eq5_solved) 0 j == Rmin eq5_solved /\
      entry (Zgrid eq5_solved) i 0 == Zmin eq5_solved.
Proof.
  split; [exact eq5_solved_in_use|].
  exact (grid_is_separable eq5_solved_in_use).
Defined.

Lemma current_update_raises_only_in_romb_witness :
  in_use (Gen:=Gen4) eq5_solved /\
  ((exists eq', solve_current J23 eq5_solved = Done tt eq') \/
   solve_current J23 eq5_solved = Failed ValueError eq5_solved).
Proof.
  split; [exact eq5_solved_in_use|].
  exact (proj2 (current_update_raises_only_in_romb J23 eq5_solved_in_use)).
Defined.

Lemma constructed_flux_witness :
  make 5 5 1 = Ok eq5 /\
  has_shape (Z.to_nat 5) (Z.to_nat 5) (plasma_psi eq5).
Proof.
  split; [exact make_eq5|].
  exact (proj1 (constructed_flux (Gen:=Gen4) _ _ _ _ _ _ _ _ make_eq5)).
Defined.

Lemma accessors_before_solve_witness :
  make 5 5 1 = Ok eq5 /\
  pprime eq5 (1 # 2) = Raise AttributeError /\
  ffprime eq5 (1 # 2) = Raise AttributeError /\
  pressure eq5 (1 # 2) = Raise AttributeError /\
  fpol eq5 (1 # 2) = Raise AttributeError /\
  fvac eq5 = Raise AttributeError.
Proof.
  split; [exact make_eq5|].
  exact (accessors_before_solve (Gen:=Gen4) _ _ _ _ _ _ _ _ (1 # 2) make_eq5).
Defined.

Lemma failed_solve_keeps_current_witness :
  equilibrium.solve (Gen:=Gen4) [VProfiles J23] [] eq5
  = Failed ValueError eq5_failed /\
  plasmaCurrent eq5_failed = plasmaCurrent eq5.
Proof.
  assert (H : equilibrium.solve (Gen:=Gen4) [VProfiles J23] [] eq5
              = Failed ValueError eq5_failed) by reflexivity.
  split; [exact H|].
  exact (failed_solve_keeps_current _ _ _ H).
Defined.

Lemma solve_needs_romb_sizes_witness :
  solve_body (Gen:=Gen4) J5 eq5 = Done tt eq5_solved /\
  exists J, solve_Jtor J5 eq5 = Ok J /\
    forall nx ny, has_shape nx ny J -> (0 < nx)%nat ->
                  romb_size nx /\ romb_size ny.
Proof.
  assert (H : solve_body (Gen:=Gen4) J5 eq5 = Done tt eq5_solved)
    by reflexivity.
  split; [exact H|].
  exact (solve_needs_romb_sizes (Gen:=Gen4) J5 eq5 H).
Defined.

Lemma seven_is_no_romb_size : ~ romb_size 7.
Proof.
  intros [k Hk].
  destruct k as [|[|[|k]]]; try (vm_compute in Hk; discriminate Hk).
  assert (2 ^ 3 <= 2 ^ S (S (S k)))%nat by (apply Nat.pow_le_mono_r; lia).
  change (2 ^ 3)%nat with 8%nat in H. lia.
Qed.

Lemma solve_rejects_size_late_witness :
  ~ (romb_size 7 /\ romb_size 7) /\
  solve_body (Gen:=Gen4) J7 eq7 = Failed ValueError eq7_failed.
Proof.
  assert (Hno : ~ (romb_size 7 /\ romb_size 7))
    by (intros [H _]; exact (seven_is_no_romb_size H)).
  split; [exact Hno|].
  eapply eq_trans.
  - eapply (solve_rejects_size_late (Gen:=Gen4) J7 eq7 (nx:=7) (ny:=7)).
    + vm_compute; reflexivity.
    + vm_compute; reflexivity.
    + vm_compute; reflexivity.
    + vm_compute; reflexivity.
    + vm_compute; reflexivity.
    + split; [reflexivity | repeat constructor].
    + split; [reflexivity | repeat constructor].
    + split; [reflexivity | repeat constructor].
    + lia.
    + lia.
    + exact Hno.
  - vm_compute. reflexivity.
Defined.

Lemma regrid_result_witness :
  refine (Gen:=Gen4) eq5_solved = Ok eq5_refined /\
  _applyBoundary eq5_refined = 1 /\ plasmaCurrent eq5_refined = 0 /\
  _profiles eq5_refined = _profiles eq5_solved.
Proof.
  assert (H : refine (Gen:=Gen4) eq5_solved = Ok eq5_refined)
    by (vm_compute; reflexivity).
  split; [exact H|].
  destruct (regrid_result (Gen:=Gen4) eq5_solved (or_introl H))
    as (psi & _ & _ & _ & _ & _ & _ & _ & _ & _ & _ & _ & _ & Hp & Hb & Hc).
  split; [exact Hb|]. split; [exact Hc | exact Hp].
Defined.

Lemma solver_is_the_constructors_witness :
  in_use (Gen:=Gen4) eq5_solved /\
  exists nx ny,
    (2 <= nx)%Z /\ (2 <= ny)%Z /\
    createVcycle nx ny
      (GSsparse (Rmin eq5_solved) (Rmax eq5_solved) (Zmin eq5_solved)
                (Zmax eq5_solved)) 1 1 2 true = Ok (_solver eq5_solved) /\
    Rgrid eq5_solved
    = grid_R (Rmin eq5_solved)
        ((Rmax eq5_solved - Rmin eq5_solved) / inject_Z (nx - 1)) nx ny /\
    Zgrid eq5_solved
    = grid_Z (Zmin eq5_solved)
        ((Zmax eq5_solved - Zmin eq5_solved) / inject_Z (ny - 1)) nx ny /\
    createPsiGreens (tokamak eq5_solved) (Rgrid eq5_solved)
                    (Zgrid eq5_solved) = Ok (_pgreen eq5_solved).
Proof.
  assert (H : in_use (Gen:=Gen4) eq5_solved).
  { change eq5_solved
      with (final_state (equilibrium.solve (Gen:=Gen4) [VProfiles J5] [] eq5)).
    apply use_solve. exact (use_init (Gen:=Gen4) _ _ _ _ _ _ _ _ make_eq5). }
  split; [exact H|].
  exact (solver_is_the_constructors H).
Defined.

Lemma carried_flux_without_constraint_witness :
  iteration scripted tt None (1 # 1000) (1 # 2) 2 4 2 [[0; 1]]
            {| obj := [Some [[0; 1]]; Some [[0; 3]]]; log := [] |}
  = Done (Some [[0 # 4; 2 # 4]])
         {| obj := [Some [[0; 3]]]; log := [CallSolve] |} /\
  exists psi_n1,
    eq_psi scripted [Some [[0; 3]]] = Ok psi_n1 /\
    same_shape [[0; 1]] psi_n1 = true /\
    feq [[0 # 4; 2 # 4]]
        (zip_with (zip_with (fun new old =>
                               (1 - 2 * (1 # 2)) * new + (1 # 2) * old))
                  psi_n1 [[0; 1]]).
Proof.
  assert (H : iteration scripted tt None (1 # 1000) (1 # 2) 2 4 2 [[0; 1]]
                {| obj := [Some [[0; 1]]; Some [[0; 3]]]; log := [] |}
              = Done (Some [[0 # 4; 2 # 4]])
                     {| obj := [Some [[0; 3]]]; log := [CallSolve] |})
    by (vm_compute; reflexivity).
  split; [exact H|].
  exact (carried_flux_without_constraint _ _ _ _ _ _ _ _ _ H).
Defined.

Lemma carried_flux_without_blend_witness :
  0 == 0 /\
  exists psi_c s',
    iteration scripted tt (Some no_adjust) (1 # 1000) 0 2 4 2 [[0; 1]]
              {| obj := [Some [[0; 1]]; Some [[0; 3]]]; log := [] |}
    = Done (Some psi_c) s' /\
    exists psi_new, eq_psi scripted (obj s') = Ok psi_new /\
                    feq psi_c psi_new.
Proof.
  assert (Hb : 0 == 0) by reflexivity.
  split; [exact Hb|].
  eexists. eexists.
  assert (H : iteration scripted tt (Some no_adjust) (1 # 1000) 0 2 4 2
                [[0; 1]]
                {| obj := [Some [[0; 1]]; Some [[0; 3]]]; log := [] |}
              = Done (Some (zip_with (zip_with Qplus)
                              (fmap (Qmult (1 - 0)) [[0; 3]])
                              (fmap (Qmult 0)
                                 (zip_with (zip_with Qminus) [[0; 1]]
                                           [[0; 3]]))))
                     {| obj := [Some [[0; 3]]];
                        log := [CallSolve; CallConstrain] |})
    by reflexivity.
  split; [exact H|].
  exact (carried_flux_without_blend _ _ _ _ _ _ _ _ _ Hb H).
Defined.

Lemma uniform_flux_never_converges_witness :
  compare scripted tt 2 4 2 [[3; 3]]
          {| obj := [Some [[3; 3]]; Some [[3; 3]]]; log := [] |}
  = Done ([[3 - 3; 3 - 3]], NonFinite)
         {| obj := [Some [[3; 3]]]; log := [CallSolve] |} /\
  uniform 3 [[3; 3]] /\
  forall s'',
    iteration scripted tt None (1 # 1000) 0 2 4 2 [[3; 3]]
              {| obj := [Some [[3; 3]]; Some [[3; 3]]]; log := [] |}
    <> Done None s''.
Proof.
  assert (H : compare scripted tt 2 4 2 [[3; 3]]
                {| obj := [Some [[3; 3]]; Some [[3; 3]]]; log := [] |}
              = Done ([[3 - 3; 3 - 3]], NonFinite)
                     {| obj := [Some [[3; 3]]]; log := [CallSolve] |})
    by reflexivity.
  assert (Hu : uniform 3 [[3; 3]])
    by (repeat constructor).
  split; [exact H|]. split; [exact Hu|].
  exact (proj2 (uniform_flux_never_converges scripted tt (1 # 1000) 0 2 4 2
                  None _ _ H eq_refl Hu)).
Defined.

Lemma nonpositive_tolerance_never_converges_witness :
  0 <= 0 /\
  forall s',
    iteration scripted tt None 0 0 2 4 2 [[0; 3]]
              {| obj := [Some [[0; 3]]; Some [[0; 3]]]; log := [] |}
    <> Done None s'.
Proof.
  assert (H : 0 <= 0) by apply Qle_refl.
  split; [exact H|].
  intros s'. exact (nonpositive_tolerance_never_converges _ _ _ _ _ _ _ _ _ H).
Defined.

End MoreRuns.
